(** * camera.py: the capture/display session as an interleaved state machine

    The program runs two threads over two shared objects, [stop_event] and
    [frame_queue].  Each thread is embedded as a program counter whose
    transitions are the atomic operations of the source (one queue call,
    one flag test, one external call); the scheduler and the outside world
    (what [cap.read()] and [cv2.waitKey(1)] return) are the action that
    labels a step.  [step] is the session in which every call returns;
    [xstep] adds the steps in which a call of the try body raises. *)

From Stdlib Require Import ZArith List Bool String Lia QArith.
Import ListNotations.
Local Open Scope Z_scope.

(** ** Python values the program manipulates *)

(** Exception classes.  [except Exception] matches the instances of
    [Exception]; [KeyboardInterrupt] and [SystemExit] derive from
    [BaseException] only. *)
Inductive exn_class : Type :=
| ClsException
| ClsCvError
| ClsQueueEmpty
| ClsKeyboardInterrupt
| ClsSystemExit.

Definition is_Exception (c : exn_class) : bool :=
  match c with
  | ClsException | ClsCvError | ClsQueueEmpty => true
  | ClsKeyboardInterrupt | ClsSystemExit => false
  end.

(** The text an exception carries, [str(e)]. *)
Inductive message : Type :=
| MsgOpenFailed (device_index : Z)   (* "Failed to open capture device at index {i}." *)
| MsgText (s : string)
| MsgEmpty.

Record exn : Type := mkExn { exn_cls : exn_class; exn_msg : message }.

(** A Python float as returned by [cap.get]. *)
Inductive pyfloat : Type :=
| FFinite (q : Q)
| FPosInf
| FNegInf
| FNaN.

(** [x < n] for a float [x] and an int [n]. *)
Definition float_lt_int (x : pyfloat) (n : Z) : bool :=
  match x with
  | FFinite q => negb (Qle_bool (inject_Z n) q)
  | FNegInf => true
  | FPosInf | FNaN => false
  end.

(** What the program writes on standard output, one constructor per
    [print] of the source. *)
Inductive output : Type :=
| OutFpsWarning (requested : Z) (actual : pyfloat)
| OutInitialized (device_index width height fps : Z)
| OutReadWarning
| OutError (m : message).

(** ** Capture settings (lines 11-13) *)

Definition CAPTURE_WIDTH : Z := 1366.
Definition CAPTURE_HEIGHT : Z := 768.
Definition CAPTURE_FPS : Z := 360.

(** ** The capture device, an external collaborator *)

(** A device answers whether index [i] can be opened and which frame rate
    it reports once the requested properties have been set. *)
Record Device : Type := mkDevice {
  dev_opens : Z -> bool;
  dev_fps : pyfloat }.

(** A device index that fits a C [int], as the binding of
    [cv2.VideoCapture] takes it. *)
Definition fits_c_int (i : Z) : bool :=
  (- 2 ^ 31 <=? i) && (i <? 2 ^ 31).

(** The [cv2.VideoCapture] object. *)
Record VideoCapture : Type := mkCap { vc_index : Z; vc_opened : bool }.

(** The constructor, for an index that fits a C [int] (the program
    passes 1).  For an index beyond that range the binding raises
    [cv2.error] instead of returning; that raise is a [Raise] event of the
    session at [MInit], below. *)
Definition VideoCapture_new (d : Device) (device_index : Z) : VideoCapture :=
  mkCap device_index (dev_opens d device_index).

Definition isOpened (cap : VideoCapture) : bool := vc_opened cap.

(** [initialize_capture_device] (lines 15-44): the printed lines and
    either the raised exception or the returned object.  The four
    [cap.set] calls return a value that the source drops. *)
Definition initialize_capture_device (d : Device) (device_index : Z)
  : list output * (exn + VideoCapture) :=
  let cap := VideoCapture_new d device_index in
  if negb (isOpened cap) then
    ([], inl (mkExn ClsException (MsgOpenFailed device_index)))
  else
    let actual_fps := dev_fps d in
    if float_lt_int actual_fps CAPTURE_FPS then
      ([OutFpsWarning CAPTURE_FPS actual_fps], inr cap)
    else
      ([], inr cap).

(** ** [queue.Queue(maxsize=2)] (line 8) *)

Definition maxsize : nat := 2.

Section Session.

Variable Frame : Type.

Definition q_empty (q : list Frame) : bool :=
  match q with [] => true | _ :: _ => false end.

(** [get_nowait]: raises [queue.Empty] on an empty queue. *)
Definition q_get_nowait (q : list Frame) : exn + (Frame * list Frame) :=
  match q with
  | [] => inl (mkExn ClsQueueEmpty MsgEmpty)
  | f :: q' => inr (f, q')
  end.

(** [get]: [None] while the queue is empty (the caller waits). *)
Definition q_get (q : list Frame) : option (Frame * list Frame) :=
  match q with
  | [] => None
  | f :: q' => Some (f, q')
  end.

(** [put]: [None] while the queue is full (the caller waits). *)
Definition q_put (q : list Frame) (f : Frame) : option (list Frame) :=
  if (List.length q <? maxsize)%nat then Some (q ++ [f]) else None.

(** ** Program counters *)

(** [capture_frames] (lines 53-62). *)
Inductive cap_pc : Type :=
| CNotStarted
| CHead                 (* while not stop_event.is_set() *)
| CRead                 (* ret, frame = cap.read() ; if ret *)
| CEmpty (f : Frame)    (* if not frame_queue.empty() *)
| CGet (f : Frame)      (* frame_queue.get_nowait() *)
| CPut (f : Frame)      (* frame_queue.put(frame) *)
| CWarn                 (* print("Warning: Failed to read ...") *)
| CSleep                (* time.sleep(0.01) *)
| CDone                 (* the loop was left *)
| CDead (e : exn).      (* the thread ended on an uncaught exception *)

(** [main] (lines 99-108) with [show_camera] (lines 72-93) inlined. *)
Inductive main_pc : Type :=
| MInit                 (* cap = initialize_capture_device(device_index) *)
| MPrintInit            (* print("Camera ... initialized ...") *)
| MStart                (* capture_thread.start() *)
| MNamedWindow          (* cv2.namedWindow *)
| MFullscreen           (* cv2.setWindowProperty *)
| DHead                 (* while not stop_event.is_set() *)
| DEmpty                (* if not frame_queue.empty() *)
| DGet                  (* frame = frame_queue.get() *)
| DShow (f : Frame)     (* cv2.imshow *)
| DKey                  (* key = waitKey(1) & 0xFF ; if key == ord('q'): set() *)
| DJoin                 (* capture_thread.join() *)
| DRelease              (* cap.release() *)
| DDestroy              (* cv2.destroyAllWindows() *)
| MExcept (e : exn)     (* an exception left the try body *)
| MReturned             (* main returned *)
| MPropagated (e : exn). (* the exception left main *)

Record State : Type := mkState {
  queue : list Frame;     (* frame_queue *)
  stop : bool;            (* stop_event *)
  nset : nat;             (* ghost: calls of stop_event.set() so far *)
  cpc : cap_pc;
  mpc : main_pc;
  out : list output;      (* standard output *)
  cap_open : bool;        (* the device handle is open *)
  window : bool;          (* the "Video Capture" window exists *)
  shown : list Frame }.   (* frames passed to cv2.imshow *)

Definition init : State :=
  mkState [] false 0%nat CNotStarted MInit [] false false [].

Definition set_queue (q : list Frame) (s : State) : State :=
  mkState q (stop s) (nset s) (cpc s) (mpc s) (out s) (cap_open s) (window s) (shown s).
Definition set_cpc (c : cap_pc) (s : State) : State :=
  mkState (queue s) (stop s) (nset s) c (mpc s) (out s) (cap_open s) (window s) (shown s).
Definition set_mpc (m : main_pc) (s : State) : State :=
  mkState (queue s) (stop s) (nset s) (cpc s) m (out s) (cap_open s) (window s) (shown s).
Definition print (o : list output) (s : State) : State :=
  mkState (queue s) (stop s) (nset s) (cpc s) (mpc s) (out s ++ o) (cap_open s) (window s) (shown s).
Definition set_cap_open (b : bool) (s : State) : State :=
  mkState (queue s) (stop s) (nset s) (cpc s) (mpc s) (out s) b (window s) (shown s).
Definition set_window (b : bool) (s : State) : State :=
  mkState (queue s) (stop s) (nset s) (cpc s) (mpc s) (out s) (cap_open s) b (shown s).
Definition imshow (f : Frame) (s : State) : State :=
  mkState (queue s) (stop s) (nset s) (cpc s) (mpc s) (out s) (cap_open s) (window s) (shown s ++ [f]).
(** [stop_event.set()]. *)
Definition stop_set (s : State) : State :=
  mkState (queue s) true (S (nset s)) (cpc s) (mpc s) (out s) (cap_open s) (window s) (shown s).

(** ** Steps *)

Definition device_index : Z := 1.
Definition ord_q : Z := 113.

(** [(key & 0xFF) == ord('q')] for the raw value of [cv2.waitKey]. *)
Definition is_quit (k : Z) : bool := Z.land k 255 =? ord_q.

(** One atomic operation of the capture thread; [r] is what [cap.read()]
    delivers ([None] when [ret] is false), looked at in [CRead] only.
    [None] as a result: the thread cannot move (not running, or waiting). *)
Definition cap_step (r : option Frame) (s : State) : option State :=
  match cpc s with
  | CNotStarted | CDone | CDead _ => None
  | CHead => Some (set_cpc (if stop s then CDone else CRead) s)
  | CRead =>
      Some (set_cpc (match r with Some f => CEmpty f | None => CWarn end) s)
  | CEmpty f =>
      Some (set_cpc (if negb (q_empty (queue s)) then CGet f else CPut f) s)
  | CGet f =>
      match q_get_nowait (queue s) with
      | inl e => Some (set_cpc (CDead e) s)
      | inr (_, q') => Some (set_queue q' (set_cpc (CPut f) s))
      end
  | CPut f =>
      match q_put (queue s) f with
      | Some q' => Some (set_queue q' (set_cpc CSleep s))
      | None => None
      end
  | CWarn => Some (print [OutReadWarning] (set_cpc CSleep s))
  | CSleep => Some (set_cpc CHead s)
  end.

Variable d : Device.

(** One atomic operation of the main thread in which the call at the
    program counter returns; [k] is what [cv2.waitKey(1)] returns, looked
    at in [DKey] only.  The step in which that call raises instead is the
    [Raise] event of [xstep], below. *)
Definition main_step (k : Z) (s : State) : option State :=
  match mpc s with
  | MInit =>
      let s1 := set_cap_open (isOpened (VideoCapture_new d device_index)) s in
      match initialize_capture_device d device_index with
      | (o, inr _) => Some (set_mpc MPrintInit (print o s1))
      | (o, inl e) => Some (set_mpc (MExcept e) (print o s1))
      end
  | MPrintInit =>
      Some (set_mpc MStart
              (print [OutInitialized device_index CAPTURE_WIDTH CAPTURE_HEIGHT
                        CAPTURE_FPS] s))
  | MStart => Some (set_mpc MNamedWindow (set_cpc CHead s))
  | MNamedWindow => Some (set_mpc MFullscreen (set_window true s))
  | MFullscreen => Some (set_mpc DHead s)
  | DHead => Some (set_mpc (if stop s then DJoin else DEmpty) s)
  | DEmpty => Some (set_mpc (if negb (q_empty (queue s)) then DGet else DKey) s)
  | DGet =>
      match q_get (queue s) with
      | Some (f, q') => Some (set_queue q' (set_mpc (DShow f) s))
      | None => None
      end
  | DShow f => Some (set_mpc DKey (imshow f s))
  | DKey =>
      Some (set_mpc DHead (if is_quit k then stop_set s else s))
  | DJoin =>
      match cpc s with
      | CDone | CDead _ => Some (set_mpc DRelease s)
      | _ => None
      end
  | DRelease => Some (set_mpc DDestroy (set_cap_open false s))
  | DDestroy => Some (set_mpc MReturned (set_window false s))
  | MExcept e =>
      if is_Exception (exn_cls e)
      then Some (set_mpc MReturned (print [OutError (exn_msg e)] s))
      else Some (set_mpc (MPropagated e) s)
  | MReturned | MPropagated _ => None
  end.

(** The scheduler picks a thread; the world supplies its input. *)
Inductive action : Type :=
| Cap (r : option Frame)
| Main (k : Z).

Definition step (a : action) (s : State) : option State :=
  match a with
  | Cap r => cap_step r s
  | Main k => main_step k s
  end.

Fixpoint run (l : list action) (s : State) : option State :=
  match l with
  | [] => Some s
  | a :: l' =>
      match step a s with
      | Some s' => run l' s'
      | None => None
      end
  end.

Inductive reachable : State -> Prop :=
| reach_init : reachable init
| reach_step a s s' : reachable s -> step a s = Some s' -> reachable s'.

(** No thread can move. *)
Definition terminal (s : State) : Prop := forall a, step a s = None.

(** The status the interpreter exits with once [main] is over: 0 after a
    normal return, 1 after an uncaught instance of [Exception].  A
    [SystemExit] that leaves [main] ends the process with its own code and
    a [KeyboardInterrupt] ends it by SIGINT: no status is given for
    them. *)
Definition exit_status (s : State) : option Z :=
  match mpc s with
  | MReturned => Some 0
  | MPropagated e => if is_Exception (exn_cls e) then Some 1 else None
  | _ => None
  end.

(** An external call of the try body raises [e] in the main thread. *)
Definition in_try (m : main_pc) : bool :=
  match m with
  | MExcept _ | MReturned | MPropagated _ => false
  | _ => true
  end.

Definition raise_in_main (e : exn) (s : State) : State := set_mpc (MExcept e) s.

(** ** Sessions in which a call of the try body may raise *)

(** Besides the steps of [step], the main thread, while inside the try
    body, can be thrown to the [except] clause: the call at its program
    counter (the [cv2.VideoCapture] constructor at [MInit], then [print],
    [start], [cv2.namedWindow], [cv2.setWindowProperty], the flag and
    queue calls, [cv2.imshow], [cv2.waitKey], [join], [cap.release],
    [cv2.destroyAllWindows]) raises [e], or Ctrl-C raises
    [KeyboardInterrupt] there.  Nothing else changes: what was opened
    stays open.  An exception of the capture thread is not such an event:
    it ends that thread ([CDead]) and never reaches [main]. *)
Inductive event : Type :=
| Run (a : action)
| Raise (e : exn).

Definition xstep (x : event) (s : State) : option State :=
  match x with
  | Run a => step a s
  | Raise e => if in_try (mpc s) then Some (raise_in_main e s) else None
  end.

Fixpoint xrun (l : list event) (s : State) : option State :=
  match l with
  | [] => Some s
  | x :: l' =>
      match xstep x s with
      | Some s' => xrun l' s'
      | None => None
      end
  end.

Inductive xreachable : State -> Prop :=
| xreach_init : xreachable init
| xreach_step x s s' : xreachable s -> xstep x s = Some s' -> xreachable s'.

(** ** Whole iterations of one thread, without interleaving *)

(** The capture thread from the loop head round to the loop head again
    (or to its end), reading [r]. *)
Fixpoint cap_until_head (fuel : nat) (r : option Frame) (s : State) : option State :=
  match fuel with
  | O => None
  | S n =>
      match cap_step r s with
      | None => None
      | Some s' =>
          match cpc s' with
          | CHead | CDone | CDead _ => Some s'
          | _ => cap_until_head n r s'
          end
      end
  end.

Definition cap_iteration (r : option Frame) (s : State) : option State :=
  cap_until_head 6 r s.

Fixpoint cap_iterations (rs : list (option Frame)) (s : State) : option State :=
  match rs with
  | [] => Some s
  | r :: rs' =>
      match cap_iteration r s with
      | Some s' => cap_iterations rs' s'
      | None => None
      end
  end.

(** The display loop's take (lines 81-82): from [DEmpty], the test and,
    when it passes, the [get]; the frame obtained, if any, and the state. *)
Definition take_latest (s : State) : option (option Frame * State) :=
  match main_step 0 s with
  | None => None
  | Some s1 =>
      match mpc s1 with
      | DGet =>
          match main_step 0 s1 with
          | Some s2 =>
              match mpc s2 with
              | DShow f => Some (Some f, s2)
              | _ => None
              end
          | None => None
          end
      | _ => Some (None, s1)
      end
  end.

End Session.

Arguments q_empty {Frame} q.
Arguments q_get_nowait {Frame} q.
Arguments q_get {Frame} q.
Arguments q_put {Frame} q f.
Arguments CNotStarted {Frame}.
Arguments CHead {Frame}.
Arguments CRead {Frame}.
Arguments CEmpty {Frame} f.
Arguments CGet {Frame} f.
Arguments CPut {Frame} f.
Arguments CWarn {Frame}.
Arguments CSleep {Frame}.
Arguments CDone {Frame}.
Arguments CDead {Frame} e.
Arguments MInit {Frame}.
Arguments MPrintInit {Frame}.
Arguments MStart {Frame}.
Arguments MNamedWindow {Frame}.
Arguments MFullscreen {Frame}.
Arguments DHead {Frame}.
Arguments DEmpty {Frame}.
Arguments DGet {Frame}.
Arguments DShow {Frame} f.
Arguments DKey {Frame}.
Arguments DJoin {Frame}.
Arguments DRelease {Frame}.
Arguments DDestroy {Frame}.
Arguments MExcept {Frame} e.
Arguments MReturned {Frame}.
Arguments MPropagated {Frame} e.
Arguments mkState {Frame}.
Arguments queue {Frame} s.
Arguments stop {Frame} s.
Arguments nset {Frame} s.
Arguments cpc {Frame} s.
Arguments mpc {Frame} s.
Arguments out {Frame} s.
Arguments cap_open {Frame} s.
Arguments window {Frame} s.
Arguments shown {Frame} s.
Arguments init {Frame}.
Arguments set_queue {Frame} q s.
Arguments set_cpc {Frame} c s.
Arguments set_mpc {Frame} m s.
Arguments print {Frame} o s.
Arguments set_cap_open {Frame} b s.
Arguments set_window {Frame} b s.
Arguments imshow {Frame} f s.
Arguments stop_set {Frame} s.
Arguments cap_step {Frame} r s.
Arguments main_step {Frame} d k s.
Arguments Cap {Frame} r.
Arguments Main {Frame} k.
Arguments step {Frame} d a s.
Arguments run {Frame} d l s.
Arguments reachable {Frame} d s.
Arguments terminal {Frame} d s.
Arguments exit_status {Frame} s.
Arguments in_try {Frame} m.
Arguments raise_in_main {Frame} e s.
Arguments cap_until_head {Frame} fuel r s.
Arguments cap_iteration {Frame} r s.
Arguments cap_iterations {Frame} rs s.
Arguments take_latest {Frame} d s.
Arguments Run {Frame} a.
Arguments Raise {Frame} e.
Arguments xstep {Frame} d x s.
Arguments xrun {Frame} d l s.
Arguments xreachable {Frame} d s.

(** ** Ranks used to bound what is left to do once the stop signal is set *)

Definition rank_cap {Frame} (c : @cap_pc Frame) : nat :=
  match c with
  | CNotStarted | CDone | CDead _ => 0
  | CHead => 1
  | CSleep => 2
  | CPut _ | CWarn => 3
  | CGet _ => 4
  | CEmpty _ => 5
  | CRead => 6
  end.

Definition rank_main {Frame} (m : @main_pc Frame) : nat :=
  match m with
  | DHead => 4
  | DJoin => 3
  | DRelease => 2
  | DDestroy => 1
  | _ => 0
  end.

Definition rank {Frame} (s : State Frame) : nat :=
  (rank_cap (cpc s) + rank_main (mpc s))%nat.

(** The main thread is inside [show_camera], past [capture_thread.start()]. *)
Definition started {Frame} (m : @main_pc Frame) : bool :=
  match m with
  | MNamedWindow | MFullscreen | DHead | DEmpty | DGet | DShow _ | DKey
  | DJoin | DRelease | DDestroy => true
  | _ => false
  end.

(** Where the main thread can be while the stop signal is set. *)
Definition stopped_pc {Frame} (m : @main_pc Frame) : bool :=
  match m with
  | DHead | DJoin | DRelease | DDestroy | MReturned => true
  | _ => false
  end.

(** The capture thread is inside an iteration of its loop. *)
Definition in_iteration {Frame} (c : @cap_pc Frame) : bool :=
  match c with
  | CRead | CEmpty _ | CGet _ | CPut _ | CWarn | CSleep => true
  | _ => false
  end.

(** Both loops are over: the capture thread has ended and [main] has
    returned. *)
Definition loops_over {Frame} (s : State Frame) : bool :=
  match cpc s, mpc s with
  | (CDone | CDead _), MReturned => true
  | _, _ => false
  end.

(** ** Concrete devices and schedules *)

(** No camera answers at any index. *)
Definition dev_absent : Device := mkDevice (fun _ => false) (FFinite 0).

(** A camera that opens and reports 60 frames per second. *)
Definition dev_60fps : Device := mkDevice (fun _ => true) (FFinite (60 # 1)).

(** Start-up of a session: the five steps of the main thread up to the
    head of the display loop. *)
Definition startup : list (@action nat) :=
  [Main 0; Main 0; Main 0; Main 0; Main 0].

(** The capture thread stores frame 1, reads frame 2 and finds the queue
    non-empty; the display loop then takes frame 1; the capture thread
    goes on to its [get_nowait]. *)
Definition race_schedule : list (@action nat) :=
  startup ++
  [Cap None; Cap (Some 1%nat); Cap None; Cap None; Cap None;
   Cap None; Cap (Some 2%nat); Cap None;
   Main 0; Main 0; Main 0;
   Cap None].

(** A session in which the user presses [q] at the first key poll. *)
Definition quit_schedule : list (@action nat) :=
  startup ++ [Main 0; Main 0; Main 113].

(** The state a schedule leads to from the initial one. *)
Definition after (d : Device) (l : list (@action nat)) : State nat :=
  match run d l init with
  | Some s => s
  | None => init
  end.

(** Both threads at the head of their loops, nothing captured yet. *)
Definition running : State nat := Eval vm_compute in after dev_60fps startup.

(** The display loop at its key poll, nothing captured yet. *)
Definition polling : State nat :=
  Eval vm_compute in after dev_60fps (startup ++ [Main 0; Main 0]).

(** Frame 1 is in the channel and the display loop is at its take. *)
Definition taking : State nat :=
  Eval vm_compute in after dev_60fps
    (startup ++
     [Cap None; Cap (Some 1%nat); Cap None; Cap None; Cap None; Main 0]).

(** The display loop back at its take one iteration later, the capture
    thread not having moved. *)
(** The user has pressed [q] at the first key poll. *)
Definition quitting : State nat :=
  Eval vm_compute in after dev_60fps quit_schedule.

(** No camera: [main] has reported the failure. *)
Definition reported : State nat :=
  Eval vm_compute in after dev_absent [Main 0; Main 0].

Definition retaking : State nat :=
  Eval vm_compute in after dev_60fps
    (startup ++
     [Cap None; Cap (Some 1%nat); Cap None; Cap None; Cap None; Main 0] ++
     [Main 0; Main 0; Main 0; Main 0; Main 0]).

(** ** Notions used to describe whole sessions *)

(** The capture thread is executing [capture_frames]. *)
Definition cap_running {Frame} (c : @cap_pc Frame) : bool :=
  match c with
  | CHead => true
  | _ => in_iteration c
  end.

(** The capture thread is not running: never started, or over. *)
Definition cap_ended {Frame} (c : @cap_pc Frame) : bool :=
  match c with
  | CNotStarted | CDone | CDead _ => true
  | _ => false
  end.

(** Where the main thread is past a successful
    [initialize_capture_device] and still inside the try body. *)
Definition past_init {Frame} (m : @main_pc Frame) : bool :=
  match m with
  | MInit | MExcept _ | MReturned | MPropagated _ => false
  | _ => true
  end.

(** Where the main thread is between the opening of the device and
    [cap.release()]. *)
Definition holds_device {Frame} (m : @main_pc Frame) : bool :=
  match m with
  | DDestroy => false
  | _ => past_init m
  end.

(** Where the main thread is between [cv2.namedWindow] and
    [cv2.destroyAllWindows()]. *)
Definition has_window {Frame} (m : @main_pc Frame) : bool :=
  match m with
  | MFullscreen | DHead | DEmpty | DGet | DShow _ | DKey
  | DJoin | DRelease | DDestroy => true
  | _ => false
  end.

(** The lines [main] itself has printed when it is at [m], inside the
    try body. *)
Definition banner {Frame} (d : Device) (m : @main_pc Frame) : list output :=
  let init_lines := fst (initialize_capture_device d device_index) in
  match m with
  | MInit | MExcept _ | MReturned | MPropagated _ => []
  | MPrintInit => init_lines
  | _ =>
      init_lines ++
      [OutInitialized device_index CAPTURE_WIDTH CAPTURE_HEIGHT CAPTURE_FPS]
  end.

(** The frame a thread holds in a local variable. *)
Definition held {Frame} (m : @main_pc Frame) : list Frame :=
  match m with
  | DShow f => [f]
  | _ => []
  end.

Definition pending {Frame} (c : @cap_pc Frame) : list Frame :=
  match c with
  | CEmpty f | CGet f | CPut f => [f]
  | _ => []
  end.

(** The frames in flight, oldest first: shown, about to be shown, in the
    channel, about to be inserted. *)
Definition pipeline {Frame} (s : State Frame) : list Frame :=
  shown s ++ held (mpc s) ++ queue s ++ pending (cpc s).

(** The frame [cap.read()] delivers at a step: the one of a
    [Cap (Some f)] action taken with the capture thread at its read. *)
Definition fresh {Frame} (a : @action Frame) (c : @cap_pc Frame) : list Frame :=
  match a, c with
  | Cap (Some f), CRead => [f]
  | _, _ => []
  end.

(** The frames [cap.read()] delivers along the run of a schedule. *)
Fixpoint reads {Frame} (d : Device) (l : list (@action Frame)) (s : State Frame)
  : list Frame :=
  match l with
  | [] => []
  | a :: l' =>
      match step d a s with
      | None => []
      | Some s' => fresh a (cpc s) ++ reads d l' s'
      end
  end.

(** [subseq l1 l2]: [l1] is [l2] with some elements left out. *)
Inductive subseq {A : Type} : list A -> list A -> Prop :=
| subseq_nil : subseq [] []
| subseq_skip x l1 l2 : subseq l1 l2 -> subseq l1 (x :: l2)
| subseq_keep x l1 l2 : subseq l1 l2 -> subseq (x :: l1) (x :: l2).

(** The main thread from the head of the display loop round to the head
    again, polling key [k], with no step of the capture thread between. *)
Fixpoint main_until_head {Frame} (d : Device) (fuel : nat) (k : Z)
         (s : State Frame) : option (State Frame) :=
  match fuel with
  | O => None
  | S n =>
      match main_step d k s with
      | None => None
      | Some s' =>
          match mpc s' with
          | DHead => Some s'
          | _ => main_until_head d n k s'
          end
      end
  end.

Definition display_iteration {Frame} (d : Device) (k : Z) (s : State Frame)
  : option (State Frame) :=
  main_until_head d 5 k s.

(** An ["Error: ..."] line. *)
Definition is_error (o : output) : bool :=
  match o with
  | OutError _ => true
  | _ => false
  end.

(** A reported frame rate is below the requested one. *)
Definition fps_below (x : pyfloat) : Prop :=
  match x with
  | FFinite q => (q < inject_Z CAPTURE_FPS)%Q
  | FNegInf => True
  | FPosInf | FNaN => False
  end.

(** A camera that reports not-a-number as its frame rate. *)
Definition dev_nan : Device := mkDevice (fun _ => true) FNaN.

(** Frame 1 is in the channel, both threads at the head of their loops. *)
Definition framed : State nat :=
  Eval vm_compute in
    after dev_60fps
      (startup ++ [Cap None; Cap (Some 1%nat); Cap None; Cap None; Cap None]).

(** A schedule with two reads, the first frame shown, the second left in
    the channel. *)
Definition two_reads : list (@action nat) :=
  startup ++
  [Cap None; Cap (Some 1%nat); Cap None; Cap None; Cap None;
   Main 0; Main 0; Main 0; Main 0;
   Cap None; Cap (Some 2%nat); Cap None; Cap None; Cap None].

(** [cv2.waitKey] raises [cv2.error] at the first key poll. *)
Definition waitKey_fails : list (@event nat) :=
  map Run (startup ++ [Main 0; Main 0]) ++
  [Raise (mkExn ClsCvError (MsgText "waitKey")); Run (Main 0)].

(** Ctrl-C at the first key poll. *)
Definition ctrl_c : list (@event nat) :=
  map Run (startup ++ [Main 0; Main 0]) ++
  [Raise (mkExn ClsKeyboardInterrupt MsgEmpty); Run (Main 0)].

Definition after_events (d : Device) (l : list (@event nat)) : State nat :=
  match xrun d l init with
  | Some s => s
  | None => init
  end.

(** [main] has handled the [cv2.error] of [waitKey_fails]. *)
Definition crashed : State nat :=
  Eval vm_compute in after_events dev_60fps waitKey_fails.

(** The [KeyboardInterrupt] of [ctrl_c] has left [main]. *)
Definition interrupted : State nat :=
  Eval vm_compute in after_events dev_60fps ctrl_c.

(** The capture thread has died in the race of [race_schedule]. *)
Definition raced : State nat :=
  Eval vm_compute in after dev_60fps race_schedule.

(** * Properties *)

Section Proofs.

Variable Frame : Type.
Variable d : Device.

Local Abbreviation St := (State Frame).

(** ** The invariant of reachable states *)

Record Inv (s : St) : Prop := mkInv {
  inv_len : (List.length (queue s) <= 1)%nat;
  inv_put : forall f, cpc s = CPut f -> queue s = [];
  inv_stop : stop s = true -> nset s = 1%nat /\ stopped_pc (mpc s) = true;
  inv_nostop : stop s = false -> nset s = 0%nat;
  inv_started : started (mpc s) = true -> cpc s <> CNotStarted;
  inv_idle : cpc s = CNotStarted -> queue s = [];
  inv_stop_started : stop s = true -> cpc s <> CNotStarted }.

Ltac split_inv :=
  constructor; simpl in *; intros;
  try solve [ discriminate | congruence | lia | eauto | intuition congruence ].

Lemma Inv_init : Inv init.
Proof. split_inv. Qed.

Lemma Inv_cap_step r s s' :
  Inv s -> cap_step r s = Some s' -> Inv s'.
Proof.
  intros [Hlen Hput Hstop Hns Hst Hidle Hss].
  destruct s as [q st n c m o co w sh]; unfold cap_step; simpl in *.
  destruct c; intros H; try discriminate.
  - (* CHead *) injection H as <-. destruct st; split_inv.
  - (* CRead *) injection H as <-. destruct r; split_inv.
  - (* CEmpty *)
    injection H as <-. destruct q as [|x q]; simpl; split_inv.
  - (* CGet *)
    destruct q as [|x [|y q]]; simpl in *; try lia;
      injection H as <-; split_inv.
  - (* CPut *)
    rewrite (Hput f eq_refl) in *. simpl in H. injection H as <-. split_inv.
  - (* CWarn *) injection H as <-. split_inv.
  - (* CSleep *) injection H as <-. split_inv.
Qed.

Lemma Inv_main_step k s s' :
  Inv s -> main_step d k s = Some s' -> Inv s'.
Proof.
  intros [Hlen Hput Hstop Hns Hst Hidle Hss].
  destruct s as [q st n c m o co w sh]; unfold main_step; simpl in *.
  destruct m; intros H; try discriminate.
  - (* MInit *)
    unfold initialize_capture_device in H.
    destruct (negb (isOpened (VideoCapture_new d device_index)));
      [| destruct (float_lt_int (dev_fps d) CAPTURE_FPS)];
      injection H as <-; split_inv.
  - injection H as <-. split_inv.
  - injection H as <-. split_inv.
  - injection H as <-. split_inv.
  - injection H as <-. split_inv.
  - (* DHead *) injection H as <-. destruct st; split_inv.
  - (* DEmpty *)
    injection H as <-. destruct q; simpl; split_inv.
  - (* DGet *)
    destruct q as [|x q]; simpl in *; try discriminate.
    injection H as <-. split_inv.
    all: destruct q; simpl in *; [reflexivity | lia].
  - (* DShow *) injection H as <-. split_inv.
  - (* DKey *)
    destruct st; [ destruct Hstop as [_ Hs]; [reflexivity | discriminate] |].
    injection H as <-. destruct (is_quit k); split_inv.
    all: try (rewrite Hns; auto).
  - (* DJoin *)
    destruct c; try discriminate; injection H as <-; split_inv.
  - (* DRelease *) injection H as <-. split_inv.
  - (* DDestroy *) injection H as <-. split_inv.
  - (* MExcept *)
    destruct (is_Exception (exn_cls e)); injection H as <-; split_inv.
Qed.

Lemma Inv_step a (s s' : St) : Inv s -> step d a s = Some s' -> Inv s'.
Proof.
  destruct a; simpl; eauto using Inv_cap_step, Inv_main_step.
Qed.

Lemma reachable_Inv (s : St) : reachable d s -> Inv s.
Proof.
  induction 1; eauto using Inv_init, Inv_step.
Qed.

Lemma reachable_run l (s s' : St) :
  reachable d s -> run d l s = Some s' -> reachable d s'.
Proof.
  revert s. induction l as [|a l IH]; simpl; intros s Hs H.
  - injection H as <-. exact Hs.
  - destruct (step d a s) as [s1|] eqn:E; try discriminate.
    apply (IH s1); [ exact (reach_step _ _ _ _ _ Hs E) | exact H ].
Qed.

Lemma reachable_after l (s : St) : run d l init = Some s -> reachable d s.
Proof. apply reachable_run, reach_init. Qed.

(** ** The frame channel *)

(** One capture iteration that reads frame [f], started at the loop head
    on a channel of at most one frame, leaves exactly [f] in it. *)
Lemma cap_iteration_stores (s : St) (f : Frame) :
  (List.length (queue s) <= 1)%nat -> cpc s = CHead -> stop s = false ->
  cap_iteration (Some f) s = Some (set_queue [f] s).
Proof.
  destruct s as [q st n c m o co w sh]; simpl; intros Hlen -> ->.
  destruct q as [|x [|y q]]; simpl in Hlen; try lia; reflexivity.
Qed.

(** C1: N >= 1 successive insertions by the capture loop, the display
    loop taking nothing in between, leave in the channel exactly the frame
    produced last: the queue is the one-element list of that frame, so the
    next [get] yields it and nothing after it; the capture thread is back
    at its loop head and nothing else has changed. *)
Theorem latest_frame_wins (s : St) (fs : list Frame) (f : Frame) :
  reachable d s -> cpc s = CHead -> stop s = false ->
  exists s',
    cap_iterations (map Some (fs ++ [f])) s = Some s' /\
    queue s' = [f] /\
    q_get (queue s') = Some (f, []) /\
    cpc s' = CHead /\ stop s' = false /\ mpc s' = mpc s /\
    shown s' = shown s /\ out s' = out s.
Proof.
  intros Hr. apply reachable_Inv in Hr. destruct Hr as [Hlen _ _ _ _ _ _].
  revert s Hlen. induction fs as [|g fs IH]; intros s Hlen Hc Hs; simpl.
  - rewrite cap_iteration_stores by assumption.
    exists (set_queue [f] s). simpl. auto 10.
  - rewrite cap_iteration_stores by assumption.
    destruct (IH (set_queue [g] s)) as (s' & E & H); simpl; auto.
    exists s'. split; [exact E | exact H].
Qed.

(** C2: in every reachable state, whatever the interleaving of the two
    threads, the frame channel holds no frame or one frame. *)
Theorem channel_holds_at_most_one (s : St) :
  reachable d s -> queue s = [] \/ exists f, queue s = [f].
Proof.
  intros Hr. apply reachable_Inv in Hr. destruct Hr as [Hlen _ _ _ _ _ _].
  destruct (queue s) as [|x [|y q]]; simpl in Hlen; eauto; lia.
Qed.

(** The [put] of the capture loop finds room in every reachable state. *)
Lemma put_never_waits (s : St) (f : Frame) :
  reachable d s -> cpc s = CPut f ->
  cap_step None s = Some (set_queue [f] (set_cpc CSleep s)).
Proof.
  intros Hr Hc. apply reachable_Inv in Hr. destruct Hr as [_ Hput _ _ _ _ _].
  specialize (Hput f Hc). unfold cap_step. rewrite Hc, Hput. reflexivity.
Qed.

(** C4: the display loop's take consumes.  From any reachable state at
    the take, it succeeds and leaves the channel empty; a take made while
    the channel is still as the first one left it (nothing was put) finds
    no frame and passes on to the key poll. *)
Theorem take_latest_consumes (s s2 : St) :
  reachable d s -> mpc s = DEmpty -> mpc s2 = DEmpty ->
  exists r1 s1,
    take_latest d s = Some (r1, s1) /\
    queue s1 = [] /\
    (r1 = None -> queue s = []) /\
    (forall f, r1 = Some f -> queue s = [f] /\ mpc s1 = DShow f) /\
    (queue s2 = queue s1 -> take_latest d s2 = Some (None, set_mpc DKey s2)).
Proof.
  intros Hr Hm Hm2.
  apply reachable_Inv in Hr. destruct Hr as [Hlen _ _ _ _ _ _].
  assert (Hsecond : queue s2 = [] ->
                    take_latest d s2 = Some (None, set_mpc DKey s2)).
  { destruct s2 as [q2 st2 n2 c2 m2 o2 co2 w2 sh2]; simpl in *.
    intros ->. subst m2. reflexivity. }
  destruct s as [q st n c m o co w sh]; simpl in *; subst m.
  destruct q as [|x [|y q]]; simpl in Hlen; try lia.
  - exists None. eexists. unfold take_latest; simpl.
    split; [reflexivity|]. split; [reflexivity|]. split; [reflexivity|].
    split; [discriminate|]. exact Hsecond.
  - exists (Some x). eexists. unfold take_latest; simpl.
    split; [reflexivity|]. split; [reflexivity|]. split; [discriminate|].
    split; [|exact Hsecond].
    intros f E. injection E as <-. split; reflexivity.
Qed.

(** ** Read failures *)

(** C5: an iteration of the capture loop whose read fails reports the
    warning (one line more on standard output, nothing else), passes
    through its sleep and is back at the loop head; the channel holds what
    it held, the stop signal is still unset and was not set, the main
    thread and the frames shown are untouched, and the loop goes on to the
    next read. *)
Theorem read_failure_is_contained (s : St) (r : option Frame) :
  cpc s = CHead -> stop s = false ->
  exists s2 s',
    run d [Cap None; Cap None; Cap None] s = Some s2 /\
    cpc s2 = CSleep /\
    cap_step r s2 = Some s' /\
    cap_iteration None s = Some s' /\
    out s' = out s ++ [OutReadWarning] /\
    queue s' = queue s /\
    stop s' = false /\ nset s' = nset s /\
    cpc s' = CHead /\ mpc s' = mpc s /\ shown s' = shown s /\
    cap_open s' = cap_open s /\ window s' = window s /\
    exists s3, cap_step r s' = Some s3 /\ cpc s3 = CRead.
Proof.
  destruct s as [q st n c m o co w sh]; simpl; intros -> ->.
  eexists. eexists. split; [reflexivity |]. simpl.
  split; [reflexivity |]. split; [reflexivity |]. split; [reflexivity |].
  simpl. repeat (split; [reflexivity |]).
  eexists. split; reflexivity.
Qed.

(** ** The stop signal *)

Lemma stop_monotone a (s s' : St) :
  step d a s = Some s' -> stop s = true -> stop s' = true.
Proof.
  destruct s as [q st n c m o co w sh]; simpl; intros H ->.
  destruct a as [r|k]; simpl in H.
  - unfold cap_step in H; simpl in H.
    destruct c; try discriminate;
      try (injection H as <-; reflexivity).
    + destruct (q_get_nowait q) as [e|[x q']]; injection H as <-; reflexivity.
    + destruct (q_put q f); try discriminate. injection H as <-; reflexivity.
  - unfold main_step in H; simpl in H.
    destruct m; try discriminate;
      try (injection H as <-; reflexivity).
    + destruct (initialize_capture_device d device_index) as [o' [e|cp]];
        injection H as <-; reflexivity.
    + destruct (q_get q) as [[x q']|]; try discriminate.
      injection H as <-; reflexivity.
    + injection H as <-. destruct (is_quit k); reflexivity.
    + destruct c; try discriminate; injection H as <-; reflexivity.
    + destruct (is_Exception (exn_cls e)); injection H as <-; reflexivity.
Qed.

(** The only step that calls [stop_event.set()] is the key poll of the
    display loop on the quit key. *)
Lemma set_only_on_quit a (s s' : St) :
  step d a s = Some s' -> nset s' <> nset s ->
  exists k, a = Main k /\ mpc s = DKey /\ is_quit k = true /\
            nset s' = S (nset s) /\ stop s' = true.
Proof.
  destruct s as [q st n c m o co w sh]; simpl; intros H Hn.
  destruct a as [r|k]; simpl in H.
  - exfalso. unfold cap_step in H; simpl in H.
    destruct c; try discriminate;
      try (injection H as <-; simpl in Hn; congruence).
    + destruct (q_get_nowait q) as [e|[x q']]; injection H as <-;
        simpl in Hn; congruence.
    + destruct (q_put q f); try discriminate.
      injection H as <-; simpl in Hn; congruence.
  - unfold main_step in H; simpl in H.
    destruct m; try discriminate;
      try (exfalso; injection H as <-; simpl in Hn; congruence).
    + exfalso.
      destruct (initialize_capture_device d device_index) as [o' [e|cp]];
        injection H as <-; simpl in Hn; congruence.
    + exfalso. destruct (q_get q) as [[x q']|]; try discriminate.
      injection H as <-; simpl in Hn; congruence.
    + injection H as <-. exists k.
      destruct (is_quit k); simpl in *; [auto 6 | congruence].
    + exfalso. destruct c; try discriminate; injection H as <-;
        simpl in Hn; congruence.
    + exfalso. destruct (is_Exception (exn_cls e)); injection H as <-;
        simpl in Hn; congruence.
Qed.

(** With the stop signal set, every step brings the session closer to
    its end, the main thread stays past its loop and the capture thread
    enters no iteration. *)
Lemma stopped_step a (s s' : St) :
  Inv s -> stop s = true -> step d a s = Some s' ->
  (rank s' < rank s)%nat /\
  stopped_pc (mpc s') = true /\
  (in_iteration (cpc s') = true -> in_iteration (cpc s) = true).
Proof.
  intros [Hlen Hput Hstop Hns Hst Hidle Hss].
  destruct s as [q st n c m o co w sh]; simpl in *; intros -> H.
  destruct (Hstop eq_refl) as [_ Hm]. unfold rank.
  destruct a as [r|k]; simpl in H.
  - unfold cap_step in H; simpl in H.
    destruct c; try discriminate.
    + injection H as <-; simpl; auto with arith.
    + injection H as <-; destruct r; simpl; auto with arith.
    + injection H as <-; destruct (q_empty q); simpl; auto with arith.
    + destruct (q_get_nowait q) as [e|[x q']]; injection H as <-; simpl;
        repeat split; auto with arith; lia.
    + destruct (q_put q f); try discriminate.
      injection H as <-; simpl; auto with arith.
    + injection H as <-; simpl; auto with arith.
    + injection H as <-; simpl; auto with arith.
  - unfold main_step in H; simpl in H.
    destruct m; try discriminate.
    + injection H as <-; simpl; repeat split; auto; lia.
    + destruct c; try discriminate; injection H as <-; simpl;
        repeat split; auto; lia.
    + injection H as <-; simpl; repeat split; auto; lia.
    + injection H as <-; simpl; repeat split; auto; lia.
Qed.

(** With the stop signal set, either both loops are over or some thread
    can move. *)
Lemma stopped_progress (s : St) :
  Inv s -> stop s = true ->
  loops_over s = true \/ exists a s', step d a s = Some s'.
Proof.
  intros [Hlen Hput Hstop Hns Hst Hidle Hss].
  destruct s as [q st n c m o co w sh]; simpl in *; intros ->.
  destruct (Hstop eq_refl) as [_ Hm]. specialize (Hss eq_refl).
  assert (Hcap : forall s1, cap_step None
            (mkState q true n c m o co w sh) = Some s1 ->
            loops_over (mkState q true n c m o co w sh) = true \/
            exists a s', step d a (mkState q true n c m o co w sh) = Some s').
  { intros s1 E. right. exists (Cap None), s1. exact E. }
  assert (Hmain : forall s1, main_step d 0
            (mkState q true n c m o co w sh) = Some s1 ->
            loops_over (mkState q true n c m o co w sh) = true \/
            exists a s', step d a (mkState q true n c m o co w sh) = Some s').
  { intros s1 E. right. exists (Main 0), s1. exact E. }
  destruct c; try congruence;
    try (eapply Hcap; unfold cap_step; simpl; reflexivity).
  - destruct q; eapply Hcap; unfold cap_step; simpl; reflexivity.
  - rewrite (Hput f eq_refl) in *. eapply Hcap; reflexivity.
  - destruct m; try discriminate;
      try (eapply Hmain; unfold main_step; simpl; reflexivity).
    left; reflexivity.
  - destruct m; try discriminate;
      try (eapply Hmain; unfold main_step; simpl; reflexivity).
    left; reflexivity.
Qed.

Lemma loops_over_terminal (s : St) : loops_over s = true -> terminal d s.
Proof.
  destruct s as [q st n c m o co w sh]; unfold loops_over; simpl.
  intros H [r|k]; simpl; unfold cap_step, main_step; simpl;
    destruct c; try discriminate; destruct m; try discriminate; reflexivity.
Qed.

Lemma stopped_terminal (s : St) :
  Inv s -> stop s = true -> terminal d s -> loops_over s = true.
Proof.
  intros Hi Hs Ht. destruct (stopped_progress s Hi Hs) as [H|(a & s' & H)].
  - exact H.
  - rewrite Ht in H. discriminate.
Qed.

(** Every run from a state with the stop signal set is bounded by the
    rank, and keeps the signal set. *)
Lemma stopped_run l (s s' : St) :
  Inv s -> stop s = true -> run d l s = Some s' ->
  Inv s' /\ stop s' = true /\ (List.length l + rank s' <= rank s)%nat.
Proof.
  revert s. induction l as [|a l IH]; simpl; intros s Hi Hs H.
  - injection H as <-. auto.
  - destruct (step d a s) as [s1|] eqn:E; try discriminate.
    destruct (stopped_step a s s1 Hi Hs E) as [Hr _].
    destruct (IH s1 (Inv_step a s s1 Hi E) (stop_monotone a s s1 E Hs) H)
      as (Hi' & Hs' & Hb).
    split; [exact Hi' | split; [exact Hs' | lia]].
Qed.

(** From a state with the stop signal set, the session can always be run
    to the end of both loops. *)
Lemma stopped_terminates (s : St) :
  Inv s -> stop s = true ->
  exists l s', run d l s = Some s' /\ loops_over s' = true.
Proof.
  remember (rank s) as n eqn:En. revert s En.
  induction n as [n IH] using lt_wf_ind. intros s En Hi Hs.
  destruct (stopped_progress s Hi Hs) as [H|(a & s1 & H)].
  - exists [], s. split; [reflexivity | exact H].
  - destruct (stopped_step a s s1 Hi Hs H) as [Hr _].
    destruct (IH (rank s1) ltac:(lia) s1 eq_refl (Inv_step a s s1 Hi H)
                (stop_monotone a s s1 H Hs)) as (l & s2 & Hrun & Hover).
    exists (a :: l), s2. simpl. rewrite H. auto.
Qed.

(** C6: the stop signal only ever goes from unset to set; it is set at
    most once in a session, by the key poll of the display loop on the
    quit key; and once it is set every step brings the end nearer, neither
    loop starts another iteration, every run is bounded, any state in
    which nothing can move has both loops over, and such a state can be
    reached. *)
Theorem stop_signal_monotonic (s : St) :
  reachable d s ->
  (nset s <= 1)%nat /\
  (stop s = true <-> nset s = 1%nat) /\
  (forall a s', step d a s = Some s' ->
     (stop s = true -> stop s' = true) /\
     (nset s' <> nset s ->
        exists k, a = Main k /\ mpc s = DKey /\ is_quit k = true /\
                  stop s = false /\ stop s' = true) /\
     (stop s = true ->
        (rank s' < rank s)%nat /\
        stopped_pc (mpc s') = true /\
        (in_iteration (cpc s') = true -> in_iteration (cpc s) = true))) /\
  (stop s = true ->
     (forall l s', run d l s = Some s' ->
        stop s' = true /\
        (List.length l + rank s' <= rank s)%nat /\
        (terminal d s' -> loops_over s' = true)) /\
     (exists l s', run d l s = Some s' /\ loops_over s' = true)).
Proof.
  intros Hr. pose proof (reachable_Inv s Hr) as Hi.
  pose proof Hi as [Hlen Hput Hstop Hns Hst Hidle Hss].
  split; [| split; [| split]].
  - destruct (stop s); [destruct (Hstop eq_refl) | rewrite Hns]; auto; lia.
  - split.
    + intros E. apply Hstop; exact E.
    + intros E. destruct (stop s); auto. rewrite Hns in E; auto. discriminate.
  - intros a s' H. split; [| split].
    + apply (stop_monotone a s s' H).
    + intros Hn. destruct (set_only_on_quit a s s' H Hn) as (k & -> & Hm & Hq & _ & Hs').
      exists k. repeat split; auto.
      destruct (stop s) eqn:Es; auto.
      destruct (Hstop eq_refl) as [_ Hp]. rewrite Hm in Hp. discriminate.
    + intros Hs. exact (stopped_step a s s' Hi Hs H).
  - intros Hs. split.
    + intros l s' Hrun.
      destruct (stopped_run l s s' Hi Hs Hrun) as (Hi' & Hs' & Hb).
      split; [exact Hs' | split; [exact Hb |]].
      intros Ht. exact (stopped_terminal s' Hi' Hs' Ht).
    + exact (stopped_terminates s Hi Hs).
Qed.

(** ** Start-up and exit *)

Lemma init_fails :
  dev_opens d device_index = false ->
  initialize_capture_device d device_index
  = ([], inl (mkExn ClsException (MsgOpenFailed device_index))).
Proof.
  intros H. unfold initialize_capture_device, isOpened, VideoCapture_new.
  simpl. rewrite H. reflexivity.
Qed.

(** The state in which the open failure has been raised, and the one in
    which [main] has reported it. *)
Local Abbreviation s_raised :=
  (mkState (Frame:=Frame) [] false 0%nat CNotStarted
     (MExcept (mkExn ClsException (MsgOpenFailed device_index)))
     [] false false []).
Local Abbreviation s_reported :=
  (mkState (Frame:=Frame) [] false 0%nat CNotStarted MReturned
     [OutError (MsgOpenFailed device_index)] false false []).

Lemma open_failure_run :
  dev_opens d device_index = false ->
  run d [Main 0; Main 0] (@init Frame) = Some s_reported.
Proof.
  intros H. simpl. unfold main_step at 1. simpl.
  rewrite (init_fails H). unfold isOpened, VideoCapture_new. simpl.
  rewrite H. reflexivity.
Qed.

Lemma open_failure_states (s : St) :
  dev_opens d device_index = false -> reachable d s ->
  s = init \/ s = s_raised \/ s = s_reported.
Proof.
  intros H Hr. induction Hr as [|a s s' Hr IH E].
  - auto.
  - destruct IH as [-> | [-> | ->]]; destruct a as [r|k]; simpl in E;
      try discriminate.
    + unfold main_step in E. simpl in E. rewrite (init_fails H) in E.
      unfold isOpened, VideoCapture_new in E. simpl in E. rewrite H in E.
      injection E as <-. auto.
    + injection E as <-. auto.
Qed.

Lemma s_reported_terminal : terminal d s_reported.
Proof. intros [r|k]; reflexivity. Qed.

(** C7 (amended): pressing [q] at the key poll sets the stop signal, every
    run from there ends within ten steps, it can end, and where it ends
    the exit status is 0; when the device cannot be opened the session
    ends with the error line printed and exit status 0 as well. *)
Theorem quit_and_open_failure_exit_zero :
  (forall (s : St) (k : Z),
     reachable d s -> mpc s = DKey -> is_quit k = true ->
     exists s1, step d (Main k) s = Some s1 /\ stop s1 = true /\
       (forall l s2, run d l s1 = Some s2 ->
          (List.length l <= 10)%nat /\
          (terminal d s2 -> exit_status s2 = Some 0)) /\
       (exists l s2, run d l s1 = Some s2 /\ terminal d s2 /\
                     exit_status s2 = Some 0)) /\
  (dev_opens d device_index = false ->
     (forall s : St, reachable d s -> terminal d s ->
        out s = [OutError (MsgOpenFailed device_index)] /\
        exit_status s = Some 0) /\
     (exists s : St, run d [Main 0; Main 0] init = Some s /\ terminal d s)).
Proof.
  assert (Hexit : forall s : St, loops_over s = true -> exit_status s = Some 0).
  { intros [q st n c m o co w sh]; unfold loops_over, exit_status; simpl.
    destruct c; try discriminate; destruct m; try discriminate; reflexivity. }
  split.
  - intros s k Hr Hm Hq.
    assert (E : step d (Main k) s = Some (set_mpc DHead (stop_set s))).
    { simpl. unfold main_step. rewrite Hm, Hq. reflexivity. }
    exists (set_mpc DHead (stop_set s)).
    pose proof (reachable_Inv _ (reach_step _ _ _ _ _ Hr E)) as Hi.
    assert (Hs : stop (set_mpc DHead (stop_set s)) = true) by reflexivity.
    assert (Hrank : (rank (set_mpc DHead (stop_set s)) <= 10)%nat).
    { unfold rank; simpl. destruct (cpc s); simpl; lia. }
    split; [exact E | split; [exact Hs | split]].
    + intros l s2 Hrun.
      destruct (stopped_run l _ s2 Hi Hs Hrun) as (Hi2 & Hs2 & Hb).
      split; [lia |]. intros Ht. apply Hexit.
      exact (stopped_terminal s2 Hi2 Hs2 Ht).
    + destruct (stopped_terminates _ Hi Hs) as (l & s2 & Hrun & Hover).
      exists l, s2. split; [exact Hrun | split].
      * exact (loops_over_terminal s2 Hover).
      * exact (Hexit s2 Hover).
  - intros H. split.
    + intros s Hr Ht.
      destruct (open_failure_states s H Hr) as [-> | [-> | ->]].
      * specialize (Ht (Main 0)). simpl in Ht. unfold main_step in Ht.
        simpl in Ht. rewrite (init_fails H) in Ht. discriminate.
      * specialize (Ht (Main 0)). discriminate.
      * split; reflexivity.
    + exists s_reported. split; [exact (open_failure_run H) |].
      exact s_reported_terminal.
Qed.

(** C8: when the device cannot be opened, [initialize_capture_device]
    raises; in every state the session can reach the capture thread was
    never started, the main thread never got into [show_camera], the
    device handle is not open, no window exists and no frame was shown;
    and the session ends, [main] having printed the error line. *)
Theorem open_failure_aborts_cleanly :
  dev_opens d device_index = false ->
  initialize_capture_device d device_index
    = ([], inl (mkExn ClsException (MsgOpenFailed device_index))) /\
  (forall s : St, reachable d s ->
     cpc s = CNotStarted /\ started (mpc s) = false /\
     mpc s <> MPrintInit /\ mpc s <> MStart /\
     cap_open s = false /\ window s = false /\
     shown s = [] /\ queue s = []) /\
  (exists s : St,
     run d [Main 0; Main 0] init = Some s /\ terminal d s /\
     mpc s = MReturned /\
     out s = [OutError (MsgOpenFailed device_index)]).
Proof.
  intros H. split; [exact (init_fails H) | split].
  - intros s Hr.
    destruct (open_failure_states s H Hr) as [-> | [-> | ->]]; simpl;
      repeat split; discriminate.
  - exists s_reported. split; [exact (open_failure_run H) |].
    split; [exact s_reported_terminal | split; reflexivity].
Qed.

(** C9: on a device that opens and reports a frame rate below the
    requested one, [initialize_capture_device] prints the warning, raises
    nothing and returns the opened object; [main] goes on to announce the
    camera. *)
Theorem fps_mismatch_is_warning (idx : Z) :
  dev_opens d idx = true ->
  float_lt_int (dev_fps d) CAPTURE_FPS = true ->
  initialize_capture_device d idx
    = ([OutFpsWarning CAPTURE_FPS (dev_fps d)], inr (mkCap idx true)) /\
  isOpened (mkCap idx true) = true /\
  (idx = device_index ->
   step d (Main 0) (@init Frame)
   = Some (mkState [] false 0%nat CNotStarted MPrintInit
             [OutFpsWarning CAPTURE_FPS (dev_fps d)] true false [])).
Proof.
  intros Ho Hf.
  assert (E : initialize_capture_device d idx
              = ([OutFpsWarning CAPTURE_FPS (dev_fps d)], inr (mkCap idx true))).
  { unfold initialize_capture_device, isOpened, VideoCapture_new. simpl.
    rewrite Ho. simpl. rewrite Hf. reflexivity. }
  split; [exact E | split; [reflexivity |]].
  intros ->. simpl. unfold main_step. simpl. rewrite E.
  unfold isOpened, VideoCapture_new. simpl. rewrite Ho. reflexivity.
Qed.

End Proofs.

(** * The session on concrete devices *)

Lemma running_reachable : reachable dev_60fps running.
Proof.
  apply (reachable_after nat dev_60fps startup). vm_compute. reflexivity.
Qed.

Lemma polling_reachable : reachable dev_60fps polling.
Proof.
  apply (reachable_after nat dev_60fps (startup ++ [Main 0; Main 0])).
  vm_compute. reflexivity.
Qed.

Lemma taking_reachable : reachable dev_60fps taking.
Proof.
  apply (reachable_after nat dev_60fps
           (startup ++ [Cap None; Cap (Some 1%nat); Cap None; Cap None;
                        Cap None; Main 0])).
  vm_compute. reflexivity.
Qed.

Lemma quitting_reachable : reachable dev_60fps quitting.
Proof.
  apply (reachable_after nat dev_60fps quit_schedule). vm_compute. reflexivity.
Qed.

Lemma reported_reachable : reachable dev_absent reported.
Proof.
  apply (reachable_after nat dev_absent [Main 0; Main 0]).
  vm_compute. reflexivity.
Qed.

Lemma latest_frame_wins_witness :
  reachable dev_60fps running /\ cpc running = CHead /\ stop running = false /\
  exists s',
    cap_iterations (map Some ([1; 2] ++ [3]))%nat running = Some s' /\
    queue s' = [3%nat] /\
    q_get (queue s') = Some (3%nat, []) /\
    cpc s' = CHead /\ stop s' = false /\ mpc s' = mpc running /\
    shown s' = shown running /\ out s' = out running.
Proof.
  pose proof running_reachable as Hr.
  split; [exact Hr | split; [reflexivity | split; [reflexivity |]]].
  exact (latest_frame_wins nat dev_60fps running [1; 2]%nat 3%nat Hr
           eq_refl eq_refl).
Defined.

Lemma channel_holds_at_most_one_witness :
  reachable dev_60fps taking /\
  (queue taking = [] \/ exists f, queue taking = [f]).
Proof.
  pose proof taking_reachable as Hr.
  split; [exact Hr |].
  exact (channel_holds_at_most_one nat dev_60fps taking Hr).
Defined.

(** C3: the insertion step of the capture loop fails when the display
    loop takes the pending frame between the capture loop's emptiness test
    and its [get_nowait]: [queue.Empty] is raised, the capture thread ends
    on it, and frame 2 never reaches the channel. *)
Theorem insertion_race_raises_Empty :
  exists s,
    run dev_60fps race_schedule init = Some s /\
    cpc s = CDead (mkExn ClsQueueEmpty MsgEmpty) /\
    queue s = [] /\
    shown s = [] /\
    mpc s = DShow 1%nat /\
    forall r, cap_step r s = None.
Proof.
  vm_compute. eexists. split; [reflexivity |].
  repeat split.
Qed.

Lemma take_latest_consumes_witness :
  reachable dev_60fps taking /\ mpc taking = DEmpty /\ mpc retaking = DEmpty /\
  exists r1 s1,
    take_latest dev_60fps taking = Some (r1, s1) /\
    queue s1 = [] /\
    (r1 = None -> queue taking = []) /\
    (forall f, r1 = Some f -> queue taking = [f] /\ mpc s1 = DShow f) /\
    (queue retaking = queue s1 ->
     take_latest dev_60fps retaking = Some (None, set_mpc DKey retaking)).
Proof.
  pose proof taking_reachable as Hr.
  split; [exact Hr | split; [reflexivity | split; [reflexivity |]]].
  exact (take_latest_consumes nat dev_60fps taking retaking Hr
           eq_refl eq_refl).
Defined.

Lemma read_failure_is_contained_witness :
  cpc running = CHead /\ stop running = false /\
  exists s2 s',
    run dev_60fps [Cap None; Cap None; Cap None] running = Some s2 /\
    cpc s2 = CSleep /\
    cap_step (Some 7%nat) s2 = Some s' /\
    cap_iteration None running = Some s' /\
    out s' = out running ++ [OutReadWarning] /\
    queue s' = queue running /\
    stop s' = false /\ nset s' = nset running /\
    cpc s' = CHead /\ mpc s' = mpc running /\ shown s' = shown running /\
    cap_open s' = cap_open running /\ window s' = window running /\
    exists s3, cap_step (Some 7%nat) s' = Some s3 /\ cpc s3 = CRead.
Proof.
  split; [reflexivity | split; [reflexivity |]].
  exact (read_failure_is_contained nat dev_60fps running (Some 7%nat)
           eq_refl eq_refl).
Defined.

Lemma stop_signal_monotonic_witness :
  reachable dev_60fps quitting /\
  (nset quitting <= 1)%nat /\
  (stop quitting = true <->
   nset quitting = 1%nat).
Proof.
  pose proof quitting_reachable as Hr.
  split; [exact Hr |].
  destruct (stop_signal_monotonic nat dev_60fps _ Hr) as (H1 & H2 & _).
  split; [exact H1 | exact H2].
Defined.

(** C7, refuted as stated: with no camera to open, the session ends in a
    state whose exit status is 0, not a non-zero one. *)
Lemma open_failure_exit_status_is_zero :
  ~ (forall s : State nat,
       reachable dev_absent s -> terminal dev_absent s ->
       exists z, exit_status s = Some z /\ z <> 0).
Proof.
  intros H.
  destruct (H reported) as (z & Hz & Hnz).
  - exact reported_reachable.
  - intros [r|k]; reflexivity.
  - apply Hnz. vm_compute in Hz. congruence.
Qed.

Lemma quit_and_open_failure_exit_zero_witness :
  (reachable dev_60fps polling /\ mpc polling = DKey /\ is_quit 113 = true /\
   exists s1, step dev_60fps (Main 113) polling = Some s1 /\ stop s1 = true /\
     (forall l s2, run dev_60fps l s1 = Some s2 ->
        (List.length l <= 10)%nat /\
        (terminal dev_60fps s2 -> exit_status s2 = Some 0)) /\
     (exists l s2, run dev_60fps l s1 = Some s2 /\ terminal dev_60fps s2 /\
                   exit_status s2 = Some 0)) /\
  (dev_opens dev_absent device_index = false /\
   (forall s : State nat, reachable dev_absent s -> terminal dev_absent s ->
      out s = [OutError (MsgOpenFailed device_index)] /\
      exit_status s = Some 0) /\
   (exists s : State nat,
      run dev_absent [Main 0; Main 0] init = Some s /\ terminal dev_absent s)).
Proof.
  pose proof polling_reachable as Hr.
  split.
  - split; [exact Hr | split; [reflexivity | split; [reflexivity |]]].
    exact (proj1 (quit_and_open_failure_exit_zero nat dev_60fps)
             polling 113 Hr eq_refl eq_refl).
  - split; [reflexivity |].
    exact (proj2 (quit_and_open_failure_exit_zero nat dev_absent) eq_refl).
Defined.

Lemma open_failure_aborts_cleanly_witness :
  dev_opens dev_absent device_index = false /\
  initialize_capture_device dev_absent device_index
    = ([], inl (mkExn ClsException (MsgOpenFailed device_index))) /\
  (forall s : State nat, reachable dev_absent s ->
     cpc s = CNotStarted /\ started (mpc s) = false /\
     mpc s <> MPrintInit /\ mpc s <> MStart /\
     cap_open s = false /\ window s = false /\
     shown s = [] /\ queue s = []) /\
  (exists s : State nat,
     run dev_absent [Main 0; Main 0] init = Some s /\ terminal dev_absent s /\
     mpc s = MReturned /\
     out s = [OutError (MsgOpenFailed device_index)]).
Proof.
  split; [reflexivity |].
  exact (open_failure_aborts_cleanly nat dev_absent eq_refl).
Defined.

Lemma fps_mismatch_is_warning_witness :
  dev_opens dev_60fps 1 = true /\
  float_lt_int (dev_fps dev_60fps) CAPTURE_FPS = true /\
  initialize_capture_device dev_60fps 1
    = ([OutFpsWarning CAPTURE_FPS (dev_fps dev_60fps)], inr (mkCap 1 true)) /\
  isOpened (mkCap 1 true) = true /\
  (1 = device_index ->
   step dev_60fps (Main 0) (@init nat)
   = Some (mkState [] false 0%nat CNotStarted MPrintInit
             [OutFpsWarning CAPTURE_FPS (dev_fps dev_60fps)] true false [])).
Proof.
  split; [reflexivity | split; [reflexivity |]].
  exact (fps_mismatch_is_warning nat dev_60fps 1 eq_refl eq_refl).
Defined.

(** * Whole sessions: safety of the two threads together *)

Section Sessions.

Variable Frame : Type.
Variable d : Device.

Local Abbreviation St := (State Frame).

(** A second invariant of reachable states, on top of [Inv]. *)
Record Safe (s : St) : Prop := mkSafe {
  sf_get : mpc s = DGet -> queue s <> [] \/ exists f, cpc s = CPut f;
  sf_dead : forall e, cpc s = CDead e ->
            e = mkExn ClsQueueEmpty MsgEmpty /\ queue s = [];
  sf_done : cpc s = CDone -> stop s = true;
  sf_exit : mpc s = DJoin \/ mpc s = DRelease \/ mpc s = DDestroy ->
            stop s = true;
  sf_joined : mpc s = DRelease \/ mpc s = DDestroy \/ mpc s = MReturned ->
              cap_ended (cpc s) = true;
  sf_cstart : cpc s = CNotStarted \/ started (mpc s) = true \/ mpc s = MReturned;
  sf_exc : forall e, mpc s = MExcept e ->
           e = mkExn ClsException (MsgOpenFailed device_index) /\
           dev_opens d device_index = false;
  sf_noprop : forall e, mpc s <> MPropagated e;
  sf_opened : past_init (mpc s) = true -> dev_opens d device_index = true;
  sf_ret : mpc s = MReturned ->
           stop s = true \/ dev_opens d device_index = false;
  sf_cap_open : cap_open s = holds_device (mpc s);
  sf_window : window s = has_window (mpc s) }.

Ltac use_get :=
  match goal with
  | Hg : ?m = DGet -> _, H : ?m = DGet |- _ =>
      destruct (Hg H) as [? | [? ?]]
  | Hg : DGet = DGet -> _ |- _ =>
      destruct (Hg eq_refl) as [? | [? ?]]
  end.

Ltac split_safe :=
  constructor; simpl in *; intros;
  try solve [ discriminate | congruence | reflexivity | assumption
            | eauto | intuition congruence
            | use_get; solve [ discriminate | congruence | eauto
                             | left; congruence | left; discriminate ] ].

Lemma Safe_init : Safe init.
Proof. split_safe. Qed.

Lemma Safe_cap_step r (s s' : St) :
  Inv Frame s -> Safe s -> cap_step r s = Some s' -> Safe s'.
Proof.
  intros [Hlen Hput Hstop Hns Hst Hidle Hss]
         [Hget Hdead Hdone Hexit Hjoin Hcs Hexc Hnp Hop Hret Hco Hw].
  destruct s as [q st n c m o co w sh]; unfold cap_step; simpl in *.
  destruct c; intros H; try discriminate.
  - (* CHead *) injection H as <-. destruct st; split_safe.
  - (* CRead *) injection H as <-. destruct r; split_safe.
  - (* CEmpty *) injection H as <-. destruct q as [|x q]; simpl; split_safe.
  - (* CGet *)
    destruct q as [|x [|y q]]; simpl in *; try lia;
      injection H as <-; split_safe.
  - (* CPut *)
    rewrite (Hput f eq_refl) in *. simpl in H. injection H as <-. split_safe.
  - (* CWarn *) injection H as <-. split_safe.
  - (* CSleep *) injection H as <-. split_safe.
Qed.

Lemma Safe_main_step k (s s' : St) :
  Inv Frame s -> Safe s -> main_step d k s = Some s' -> Safe s'.
Proof.
  intros [Hlen Hput Hstop Hns Hst Hidle Hss]
         [Hget Hdead Hdone Hexit Hjoin Hcs Hexc Hnp Hop Hret Hco Hw].
  destruct s as [q st n c m o co w sh]; unfold main_step; simpl in *.
  destruct m; intros H; try discriminate.
  - (* MInit *)
    unfold initialize_capture_device, isOpened, VideoCapture_new in H.
    simpl in H.
    destruct (dev_opens d device_index) eqn:Eo; simpl in H;
      [ destruct (float_lt_int (dev_fps d) CAPTURE_FPS) |];
      injection H as <-; split_safe.
  - injection H as <-. split_safe.
  - injection H as <-. split_safe.
  - injection H as <-. split_safe.
  - injection H as <-. split_safe.
  - (* DHead *) injection H as <-. destruct st; split_safe.
  - (* DEmpty *) injection H as <-. destruct q; simpl; split_safe.
  - (* DGet *)
    destruct q as [|x q]; simpl in *; try discriminate.
    injection H as <-. split_safe.
    destruct (Hdead e H) as [_ Hq]. discriminate.
  - (* DShow *) injection H as <-. split_safe.
  - (* DKey *) injection H as <-. destruct (is_quit k); split_safe.
  - (* DJoin *)
    destruct c; try discriminate; injection H as <-; split_safe.
  - (* DRelease *) injection H as <-. split_safe.
  - (* DDestroy *) injection H as <-. split_safe.
  - (* MExcept *)
    destruct (Hexc e eq_refl) as [-> Ho]. simpl in H.
    injection H as <-. split_safe.
    destruct Hcs as [-> | [Hc | Hc]]; [reflexivity | discriminate | discriminate].
Qed.

Lemma Safe_step a (s s' : St) :
  Inv Frame s -> Safe s -> step d a s = Some s' -> Safe s'.
Proof.
  destruct a; simpl; eauto using Safe_cap_step, Safe_main_step.
Qed.

Lemma reachable_Safe (s : St) : reachable d s -> Safe s.
Proof.
  induction 1 as [|a s s' Hr IH E].
  - exact Safe_init.
  - exact (Safe_step a s s' (reachable_Inv Frame d s Hr) IH E).
Qed.

(** ** Progress *)

(** X1: the session never deadlocks.  In every reachable state some
    thread can move, unless [main] has returned; a state in which nothing
    can move has [main] returned with the capture thread not running, and
    exit status 0. *)
Theorem session_never_deadlocks (s : St) :
  reachable d s ->
  ((exists a s', step d a s = Some s') \/ mpc s = MReturned) /\
  (terminal d s ->
   mpc s = MReturned /\ cap_ended (cpc s) = true /\ exit_status s = Some 0).
Proof.
  intros Hr.
  pose proof (reachable_Inv Frame d s Hr)
    as [Hlen Hput Hstop Hns Hst Hidle Hss].
  pose proof (reachable_Safe s Hr)
    as [Hget Hdead Hdone Hexit Hjoin Hcs Hexc Hnp Hop Hret Hco Hw].
  assert (Hcap : cap_running (cpc s) = true ->
                 exists a s', step d a s = Some s').
  { intros Hc. exists (Cap None). simpl. unfold cap_step.
    destruct (cpc s) eqn:Ec; try discriminate; eauto.
    - destruct (q_get_nowait (queue s)) as [e|[x q']]; eauto.
    - rewrite (Hput f eq_refl). simpl. eauto. }
  assert (Hprog : (exists a s', step d a s = Some s') \/ mpc s = MReturned).
  { destruct (mpc s) eqn:Em;
      try (left; exists (Main 0); simpl; unfold main_step; rewrite Em;
           eexists; reflexivity).
    - (* MInit *)
      left. exists (Main 0). simpl. unfold main_step. rewrite Em.
      destruct (initialize_capture_device d device_index) as [o [e|cp]];
        eexists; reflexivity.
    - (* DGet *)
      destruct (Hget eq_refl) as [Hq | [f Hc]].
      + left. exists (Main 0). simpl. unfold main_step. rewrite Em.
        destruct (queue s) as [|x q']; [congruence |].
        simpl. eexists; reflexivity.
      + left. apply Hcap. rewrite Hc. reflexivity.
    - (* DJoin *)
      destruct (cpc s) eqn:Ec;
        try (left; apply Hcap; reflexivity);
        try (left; exists (Main 0); simpl; unfold main_step;
             rewrite Em, Ec; eexists; reflexivity).
      exfalso. apply Hst; reflexivity.
    - (* MExcept *)
      left. exists (Main 0). simpl. unfold main_step. rewrite Em.
      destruct (is_Exception (exn_cls e)); eexists; reflexivity.
    - right; reflexivity.
    - exfalso. exact (Hnp e eq_refl). }
  split; [exact Hprog |].
  intros Ht. destruct Hprog as [(a & s' & E) | Hm].
  - rewrite Ht in E. discriminate.
  - split; [exact Hm | split].
    + apply Hjoin. auto.
    + unfold exit_status. rewrite Hm. reflexivity.
Qed.

(** ** The order of display *)

Lemma subseq_refl {A} (l : list A) : subseq l l.
Proof. induction l; constructor; assumption. Qed.

Lemma subseq_trans {A} (l1 l2 l3 : list A) :
  subseq l1 l2 -> subseq l2 l3 -> subseq l1 l3.
Proof.
  intros H12 H23. revert l1 H12.
  induction H23 as [| x l2 l3 H23 IH | x l2 l3 H23 IH]; intros l1 H12.
  - exact H12.
  - constructor. apply IH. exact H12.
  - inversion H12 as [| y a b Hab | y a b Hab]; subst.
    + constructor. apply IH. exact Hab.
    + apply subseq_keep. apply IH. exact Hab.
Qed.

Lemma subseq_app {A} (l1 l2 l3 l4 : list A) :
  subseq l1 l2 -> subseq l3 l4 -> subseq (l1 ++ l3) (l2 ++ l4).
Proof.
  intros H12 H34. induction H12; simpl.
  - exact H34.
  - constructor. assumption.
  - apply subseq_keep. assumption.
Qed.

Lemma subseq_nil_l {A} (l : list A) : subseq [] l.
Proof. induction l; constructor; assumption. Qed.

Lemma subseq_prefix {A} (l1 l2 : list A) : subseq l1 (l1 ++ l2).
Proof.
  rewrite <- (app_nil_r l1) at 1.
  apply subseq_app; [apply subseq_refl | apply subseq_nil_l].
Qed.

Lemma subseq_length {A} (l1 l2 : list A) :
  subseq l1 l2 -> (List.length l1 <= List.length l2)%nat.
Proof. induction 1; simpl; lia. Qed.

(** A step moves frames along the pipeline, adds the one just read at
    its end, or drops one; it never reorders or duplicates. *)
Lemma step_pipeline a (s s' : St) :
  step d a s = Some s' ->
  subseq (pipeline s') (pipeline s ++ fresh a (cpc s)).
Proof.
  destruct s as [q st n c m o co w sh]; unfold pipeline; simpl.
  destruct a as [r|k]; simpl; intros H.
  - unfold cap_step in H; simpl in H.
    destruct c; try discriminate; destruct r as [g|].
    all: try (injection H as <-; destruct st; destruct q; simpl;
              rewrite <- ?app_assoc; simpl; rewrite ?app_nil_r;
              apply subseq_refl).
    all: try (destruct q as [|x q']; simpl in H; injection H as <-; simpl;
              rewrite <- ?app_assoc; simpl; rewrite ?app_nil_r;
              (apply subseq_app; [apply subseq_refl |]);
              first [ apply subseq_prefix
                    | (apply subseq_app; [apply subseq_refl |]);
                      constructor; apply subseq_refl ]).
    all: unfold q_put in H; destruct (List.length q <? maxsize)%nat;
      try discriminate; injection H as <-; simpl;
      rewrite <- ?app_assoc; simpl; rewrite ?app_nil_r; apply subseq_refl.
  - rewrite app_nil_r.
    unfold main_step in H; simpl in H.
    destruct m; try discriminate.
    all: try (injection H as <-; destruct st; destruct q; destruct c;
              destruct (is_quit k); simpl;
              rewrite <- ?app_assoc; simpl; apply subseq_refl).
    + destruct (initialize_capture_device d device_index) as [o' [e|cp]];
        injection H as <-; simpl; apply subseq_refl.
    + injection H as <-. simpl.
      apply subseq_app; [apply subseq_refl |].
      apply subseq_app; [apply subseq_refl | apply subseq_nil_l].
    + destruct q as [|x q']; simpl in H; try discriminate.
      injection H as <-. simpl. apply subseq_refl.
    + destruct c; try discriminate; injection H as <-; simpl;
        apply subseq_refl.
    + destruct (is_Exception (exn_cls e)); injection H as <-; simpl;
        apply subseq_refl.
Qed.

Lemma run_pipeline l (s s' : St) :
  run d l s = Some s' ->
  subseq (pipeline s') (pipeline s ++ reads d l s).
Proof.
  revert s. induction l as [|a l IH]; simpl; intros s H.
  - injection H as <-. rewrite app_nil_r. apply subseq_refl.
  - destruct (step d a s) as [s1|] eqn:E; try discriminate.
    apply (subseq_trans _ _ _ (IH s1 H)).
    rewrite app_assoc.
    apply subseq_app; [exact (step_pipeline a s s1 E) | apply subseq_refl].
Qed.

(** X2: the frames passed to [cv2.imshow], in the order they were shown,
    are the frames [cap.read()] delivered, in the order they were read,
    with some left out: no frame is shown twice, none out of order, none
    that was not read.  The same holds of all the frames in flight. *)
Theorem shown_in_read_order (l : list (action Frame)) (s : St) :
  run d l init = Some s ->
  subseq (shown s) (reads d l init) /\
  subseq (pipeline s) (reads d l init) /\
  (List.length (shown s) <= List.length (reads d l init))%nat.
Proof.
  intros H. pose proof (run_pipeline l init s H) as Hp.
  change (pipeline init ++ reads d l init) with (reads d l init) in Hp.
  assert (Hs : subseq (shown s) (reads d l init)).
  { apply (subseq_trans _ (pipeline s)); [| exact Hp].
    unfold pipeline. apply subseq_prefix. }
  split; [exact Hs | split; [exact Hp |]].
  apply subseq_length. exact Hs.
Qed.

(** ** Resources *)

(** X3: nothing is used after it was given back.  While the capture
    thread is running the device handle is open; while the main thread is
    about to show a frame or to poll the keyboard the window exists. *)
Theorem no_use_after_release (s : St) :
  reachable d s ->
  (cap_running (cpc s) = true -> cap_open s = true) /\
  (forall f, mpc s = DShow f -> window s = true) /\
  (mpc s = DKey -> window s = true).
Proof.
  intros Hr.
  pose proof (reachable_Safe s Hr)
    as [Hget Hdead Hdone Hexit Hjoin Hcs Hexc Hnp Hop Hret Hco Hw].
  split; [| split].
  - intros Hc. rewrite Hco.
    assert (Hne : cap_ended (cpc s) = false)
      by (destruct (cpc s); simpl in *; congruence).
    assert (Hns : cpc s <> CNotStarted)
      by (intros E; rewrite E in Hc; discriminate).
    destruct (mpc s) eqn:Em; try reflexivity; exfalso.
    + destruct Hcs as [E | [E | E]]; [auto | discriminate | discriminate].
    + rewrite Hjoin in Hne by auto. discriminate.
    + destruct Hcs as [E | [E | E]]; [auto | discriminate | discriminate].
    + rewrite Hjoin in Hne by auto. discriminate.
    + exact (Hnp e eq_refl).
  - intros f E. rewrite Hw, E. reflexivity.
  - intros E. rewrite Hw, E. reflexivity.
Qed.

(** ** Leaving the loops *)

Lemma stopped_step_shown a (s s' : St) :
  Inv Frame s -> stop s = true -> step d a s = Some s' -> shown s' = shown s.
Proof.
  intros [Hlen Hput Hstop Hns Hst Hidle Hss].
  destruct s as [q st n c m o co w sh]; simpl in *; intros -> H.
  destruct (Hstop eq_refl) as [_ Hm].
  destruct a as [r|k]; simpl in H.
  - unfold cap_step in H; simpl in H.
    destruct c; try discriminate;
      try (injection H as <-; reflexivity).
    + destruct (q_get_nowait q) as [e|[x q']]; injection H as <-; reflexivity.
    + destruct (q_put q f); try discriminate. injection H as <-; reflexivity.
  - unfold main_step in H; simpl in H.
    destruct m; try discriminate;
      try (injection H as <-; reflexivity).
    destruct c; try discriminate; injection H as <-; reflexivity.
Qed.

(** X6: once the stop signal is set no further frame is shown, however
    the two threads go on. *)
Theorem nothing_shown_after_stop (l : list (action Frame)) (s s' : St) :
  reachable d s -> stop s = true -> run d l s = Some s' ->
  shown s' = shown s.
Proof.
  intros Hr. pose proof (reachable_Inv Frame d s Hr) as Hi. clear Hr.
  revert s Hi. induction l as [|a l IH]; simpl; intros s Hi Hs H.
  - injection H as <-. reflexivity.
  - destruct (step d a s) as [s1|] eqn:E; try discriminate.
    rewrite (IH s1 (Inv_step Frame d a s s1 Hi E)
               (stop_monotone Frame d a s s1 E Hs) H).
    exact (stopped_step_shown a s s1 Hi Hs E).
Qed.

(** ** After the capture thread has died *)

Lemma dead_step a (s s' : St) (e : exn) :
  reachable d s -> cpc s = CDead e -> step d a s = Some s' ->
  cpc s' = CDead e /\ fresh a (cpc s) = [].
Proof.
  intros Hr Hc H.
  pose proof (reachable_Safe s Hr)
    as [Hget Hdead Hdone Hexit Hjoin Hcs Hexc Hnp Hop Hret Hco Hw].
  rewrite Hc in *. split; [| destruct a as [[g|]|k]; reflexivity].
  destruct s as [q st n c m o co w sh]; simpl in *. subst c.
  destruct a as [r|k]; simpl in H.
  - discriminate.
  - unfold main_step in H; simpl in H.
    destruct m; try discriminate;
      try (injection H as <-; reflexivity).
    + destruct (initialize_capture_device d device_index) as [o' [e'|cp]];
        injection H as <-; reflexivity.
    + exfalso. destruct Hcs as [E | [E | E]]; discriminate.
    + destruct (q_get q) as [[x q']|]; try discriminate.
      injection H as <-; reflexivity.
    + injection H as <-. destruct (is_quit k); reflexivity.
    + destruct (is_Exception (exn_cls e0)); injection H as <-; reflexivity.
Qed.

(** X7: the capture thread can only die of [queue.Empty]; when it has,
    the channel is empty and stays empty, the thread stays dead, nothing
    is read any more, and the display shows at most the one frame it was
    holding. *)
Theorem dead_capture_freezes_display (l : list (action Frame)) (s s' : St)
        (e : exn) :
  reachable d s -> cpc s = CDead e -> run d l s = Some s' ->
  e = mkExn ClsQueueEmpty MsgEmpty /\
  queue s = [] /\
  cpc s' = CDead e /\
  queue s' = [] /\
  reads d l s = [] /\
  subseq (shown s') (shown s ++ held (mpc s)).
Proof.
  intros Hr Hc Hrun.
  destruct (sf_dead s (reachable_Safe s Hr) e Hc) as [He Hq].
  assert (Hall : cpc s' = CDead e /\ reads d l s = []).
  { clear He Hq. revert s Hr Hc Hrun.
    induction l as [|a l IH]; simpl; intros s Hr Hc Hrun.
    - injection Hrun as <-. auto.
    - destruct (step d a s) as [s1|] eqn:E; try discriminate.
      destruct (dead_step a s s1 e Hr Hc E) as [Hc1 Hf].
      destruct (IH s1 (reach_step _ _ _ _ _ Hr E) Hc1 Hrun) as [H1 H2].
      rewrite Hf, H2. auto. }
  destruct Hall as [Hc' Hreads].
  pose proof (reachable_run Frame d l s s' Hr Hrun) as Hr'.
  destruct (sf_dead s' (reachable_Safe s' Hr') e Hc') as [_ Hq'].
  repeat (split; [assumption |]).
  pose proof (run_pipeline l s s' Hrun) as Hp.
  rewrite Hreads, app_nil_r in Hp. unfold pipeline in Hp.
  rewrite Hq, Hc in Hp. simpl in Hp. rewrite !app_nil_r in Hp.
  apply (subseq_trans _ _ _ (subseq_prefix (shown s') _) Hp).
Qed.

(** ** One turn of the display loop *)

(** X12: one turn of the display loop, started at its head with the stop
    signal unset and run without the capture thread moving, shows exactly
    what was pending (one frame or none), leaves the channel empty, prints
    nothing, and is back at the head with the stop signal set exactly when
    the key polled is the quit key. *)
Theorem display_iteration_shows_pending (s : St) (k : Z) :
  reachable d s -> mpc s = DHead -> stop s = false ->
  exists s',
    display_iteration d k s = Some s' /\
    shown s' = shown s ++ queue s /\
    queue s' = [] /\
    mpc s' = DHead /\
    stop s' = is_quit k /\
    cpc s' = cpc s /\
    out s' = out s.
Proof.
  intros Hr Hm Hs.
  pose proof (reachable_Inv Frame d s Hr)
    as [Hlen Hput Hstop Hns Hst Hidle Hss].
  destruct s as [q st n c m o co w sh]; simpl in *; subst m st.
  unfold display_iteration.
  destruct q as [|x [|y q]]; simpl in Hlen; try lia; simpl;
    destruct (is_quit k); simpl; eexists; (split; [reflexivity |]);
    simpl; rewrite ?app_nil_r; repeat split.
Qed.

End Sessions.

(** * Sessions in which a call of the try body raises *)

Section Raising.

Variable Frame : Type.
Variable d : Device.

Local Abbreviation St := (State Frame).

(** The error lines of standard output. *)
Local Abbreviation errors := (fun s : St => filter is_error (out s)).

(** The invariant of the states reachable when calls may raise. *)
Record XInv (s : St) : Prop := mkXInv {
  x_len : (List.length (queue s) <= 1)%nat;
  x_put : forall f, cpc s = CPut f -> queue s = [];
  x_done : cpc s = CDone -> stop s = true;
  x_exit : mpc s = DJoin \/ mpc s = DRelease \/ mpc s = DDestroy ->
           stop s = true;
  x_joined : mpc s = DRelease \/ mpc s = DDestroy -> cap_ended (cpc s) = true;
  x_started : started (mpc s) = true -> cpc s <> CNotStarted;
  x_cstart : in_try (mpc s) = true ->
             cpc s = CNotStarted \/ started (mpc s) = true;
  x_opened : past_init (mpc s) = true -> dev_opens d device_index = true;
  x_cap_open : in_try (mpc s) = true -> cap_open s = holds_device (mpc s);
  x_window : in_try (mpc s) = true -> window s = has_window (mpc s);
  x_noerr : mpc s <> MReturned -> errors s = [];
  x_noprop : forall e, mpc s = MPropagated e ->
             is_Exception (exn_cls e) = false;
  x_ret : mpc s = MReturned ->
          (exists m, errors s = [OutError m]) \/
          (errors s = [] /\ stop s = true /\ cap_open s = false /\
           window s = false /\ cap_ended (cpc s) = true /\
           dev_opens d device_index = true) }.

Ltac split_x :=
  constructor; simpl in *; intros;
  rewrite ?filter_app in *; simpl in *; rewrite ?app_nil_r in *;
  try solve [ discriminate | congruence | reflexivity | assumption | lia
            | eauto | intuition congruence ].

Lemma XInv_init : XInv init.
Proof. split_x. Qed.

Lemma XInv_cap_step r (s s' : St) :
  XInv s -> cap_step r s = Some s' -> XInv s'.
Proof.
  intros [Hlen Hput Hdone Hexit Hjoin Hst Hcs Hop Hco Hw Hne Hnp Hret].
  destruct s as [q st n c m o co w sh]; unfold cap_step; simpl in *.
  destruct c; intros H; try discriminate.
  - (* CHead *) injection H as <-. destruct st; split_x.
  - (* CRead *) injection H as <-. destruct r; split_x.
  - (* CEmpty *) injection H as <-. destruct q as [|x q]; simpl; split_x.
  - (* CGet *)
    destruct q as [|x [|y q]]; simpl in *; try lia;
      injection H as <-; split_x.
  - (* CPut *)
    rewrite (Hput f eq_refl) in *. simpl in H. injection H as <-. split_x.
  - (* CWarn *) injection H as <-. split_x.
  - (* CSleep *) injection H as <-. split_x.
Qed.

Lemma XInv_main_step k (s s' : St) :
  XInv s -> main_step d k s = Some s' -> XInv s'.
Proof.
  intros [Hlen Hput Hdone Hexit Hjoin Hst Hcs Hop Hco Hw Hne Hnp Hret].
  destruct s as [q st n c m o co w sh]; unfold main_step; simpl in *.
  destruct m; intros H; try discriminate.
  - (* MInit *)
    unfold initialize_capture_device, isOpened, VideoCapture_new in H.
    simpl in H.
    destruct (dev_opens d device_index) eqn:Eo; simpl in H;
      [ destruct (float_lt_int (dev_fps d) CAPTURE_FPS) |];
      injection H as <-; split_x.
  - injection H as <-. split_x.
  - injection H as <-. split_x.
  - injection H as <-. split_x.
  - injection H as <-. split_x.
  - (* DHead *) injection H as <-. destruct st; split_x.
  - (* DEmpty *) injection H as <-. destruct q; simpl; split_x.
  - (* DGet *)
    destruct q as [|x q]; simpl in *; try discriminate.
    injection H as <-. split_x.
    all: destruct q; simpl in *; [reflexivity | lia].
  - (* DShow *) injection H as <-. split_x.
  - (* DKey *) injection H as <-. destruct (is_quit k); split_x.
  - (* DJoin *)
    destruct c; try discriminate; injection H as <-; split_x.
  - (* DRelease *) injection H as <-. split_x.
  - (* DDestroy *) injection H as <-. split_x.
  - (* MExcept *)
    destruct (is_Exception (exn_cls e)) eqn:Ee; injection H as <-; split_x.
    left. exists (exn_msg e). rewrite Hne by discriminate. reflexivity.
Qed.

Lemma XInv_raise e (s : St) :
  XInv s -> in_try (mpc s) = true -> XInv (raise_in_main e s).
Proof.
  intros [Hlen Hput Hdone Hexit Hjoin Hst Hcs Hop Hco Hw Hne Hnp Hret] Ht.
  destruct s as [q st n c m o co w sh]; simpl in *.
  split_x. apply Hne. intros E. rewrite E in Ht. discriminate.
Qed.

Lemma XInv_xstep x (s s' : St) : XInv s -> xstep d x s = Some s' -> XInv s'.
Proof.
  intros Hi. destruct x as [[r|k]|e]; simpl.
  - apply XInv_cap_step; exact Hi.
  - apply XInv_main_step; exact Hi.
  - destruct (in_try (mpc s)) eqn:Et; try discriminate.
    intros H. injection H as <-. apply XInv_raise; assumption.
Qed.

Lemma xreachable_XInv (s : St) : xreachable d s -> XInv s.
Proof.
  induction 1 as [|x s s' Hr IH E].
  - exact XInv_init.
  - exact (XInv_xstep x s s' IH E).
Qed.

Lemma xreachable_xrun l (s s' : St) :
  xreachable d s -> xrun d l s = Some s' -> xreachable d s'.
Proof.
  revert s. induction l as [|x l IH]; simpl; intros s Hs H.
  - injection H as <-. exact Hs.
  - destruct (xstep d x s) as [s1|] eqn:E; try discriminate.
    apply (IH s1); [ exact (xreach_step _ _ _ _ _ Hs E) | exact H ].
Qed.

(** A session without raises is one of the sessions with raises. *)
Lemma reachable_xreachable (s : St) : reachable d s -> xreachable d s.
Proof.
  induction 1 as [|a s s' Hr IH E].
  - constructor.
  - apply (xreach_step _ _ (Run a) s s' IH). exact E.
Qed.

(** ** The except clause *)

(** C10 (amended): [main] never propagates an instance of [Exception]
    raised in the main thread inside the try body.  In every session: an
    exception that has left [main] is not an instance of [Exception];
    wherever in the try body a call raises an instance of [Exception],
    [main] catches it, prints the error line with its text and returns,
    the exit status being 0; the same holds of the exception
    [initialize_capture_device] raises itself.  An exception that ends the
    capture thread is none of these: [main] neither catches nor reports
    it. *)
Theorem main_handles_Exception_in_try (s : St) (e : exn) :
  xreachable d s ->
  (forall e', mpc s = MPropagated e' -> is_Exception (exn_cls e') = false) /\
  (in_try (mpc s) = true -> is_Exception (exn_cls e) = true ->
   exists s1 s2,
     xstep d (Raise e) s = Some s1 /\ mpc s1 = MExcept e /\
     xstep d (Run (Main 0)) s1 = Some s2 /\ mpc s2 = MReturned /\
     out s2 = out s ++ [OutError (exn_msg e)] /\
     exit_status s2 = Some 0) /\
  (mpc s = MExcept e -> is_Exception (exn_cls e) = true ->
   forall k, exists s2,
     main_step d k s = Some s2 /\ mpc s2 = MReturned /\
     out s2 = out s ++ [OutError (exn_msg e)]) /\
  (forall r s' e', cap_step r s = Some s' -> cpc s' = CDead e' ->
     mpc s' = mpc s /\ out s' = out s).
Proof.
  intros Hr. pose proof (xreachable_XInv s Hr) as Hi.
  split; [exact (x_noprop s Hi) | split; [| split]].
  - intros Ht He. exists (raise_in_main e s).
    exists (set_mpc MReturned
              (print [OutError (exn_msg e)] (raise_in_main e s))).
    simpl. rewrite Ht. unfold main_step. simpl. rewrite He.
    repeat split.
  - intros Hm He k.
    exists (set_mpc MReturned (print [OutError (exn_msg e)] s)).
    unfold main_step. rewrite Hm, He. repeat split.
  - intros r s' e' H Hc. clear Hi Hr.
    destruct s as [q st n c m o co w sh]; unfold cap_step in H; simpl in *.
    destruct c; try discriminate;
      try (injection H as <-; simpl in *;
           try destruct st; try destruct r; try destruct (q_empty q);
           simpl in *; auto; discriminate).
    + destruct (q_get_nowait q) as [e0|[x q']]; injection H as <-; auto.
    + destruct (q_put q f); try discriminate.
      injection H as <-; simpl in *; discriminate.
Qed.

(** ** Resources, with raises *)

(** X4: [cap.release()] and [cv2.destroyAllWindows()] are reached only
    with the stop signal set and the capture thread over; a [main] that
    has returned without an error line has the device handle closed, no
    window and the capture thread over; but when a call of the try body
    raises an instance of [Exception], [main] returns with the device
    handle, the window and the capture thread exactly as they were at the
    raise: nothing is released on that path. *)
Theorem teardown_unless_raised (s : St) (e : exn) :
  xreachable d s ->
  (mpc s = DRelease \/ mpc s = DDestroy ->
   stop s = true /\ cap_ended (cpc s) = true /\ cpc s <> CNotStarted) /\
  (mpc s = MReturned -> filter is_error (out s) = [] ->
   stop s = true /\ cap_open s = false /\ window s = false /\
   cap_ended (cpc s) = true) /\
  (in_try (mpc s) = true -> is_Exception (exn_cls e) = true ->
   exists s2,
     xrun d [Raise e; Run (Main 0)] s = Some s2 /\
     mpc s2 = MReturned /\
     cap_open s2 = holds_device (mpc s) /\
     window s2 = has_window (mpc s) /\
     cpc s2 = cpc s /\ stop s2 = stop s /\ queue s2 = queue s).
Proof.
  intros Hr.
  pose proof (xreachable_XInv s Hr)
    as [Hlen Hput Hdone Hexit Hjoin Hst Hcs Hop Hco Hw Hne Hnp Hret].
  split; [| split].
  - intros E. split; [| split].
    + apply Hexit. tauto.
    + apply Hjoin. exact E.
    + apply Hst. destruct E as [E | E]; rewrite E; reflexivity.
  - intros E Herr. destruct (Hret E) as [[m Hm] | H].
    + rewrite Hm in Herr. discriminate.
    + tauto.
  - intros Ht He.
    exists (set_mpc MReturned
              (print [OutError (exn_msg e)] (raise_in_main e s))).
    simpl. rewrite Ht. unfold main_step. simpl. rewrite He.
    rewrite <- (Hco Ht), <- (Hw Ht). repeat split.
Qed.

(** X5: the loops are left on the stop signal or by an exception.  The
    capture loop is over without an exception, or the main thread is past
    the display loop, only with the stop signal set; a [main] that has
    returned with the stop signal unset has printed an error line. *)
Theorem loops_left_on_stop_or_exception (s : St) :
  xreachable d s ->
  (cpc s = CDone -> stop s = true) /\
  (mpc s = DJoin \/ mpc s = DRelease \/ mpc s = DDestroy -> stop s = true) /\
  (mpc s = MReturned -> stop s = false ->
   exists m, filter is_error (out s) = [OutError m]).
Proof.
  intros Hr.
  pose proof (xreachable_XInv s Hr)
    as [Hlen Hput Hdone Hexit Hjoin Hst Hcs Hop Hco Hw Hne Hnp Hret].
  split; [exact Hdone | split; [exact Hexit |]].
  intros E Hs. destruct (Hret E) as [H | H]; [exact H |].
  destruct H as (_ & H & _). congruence.
Qed.

(** ** Standard output, with raises *)

Lemma repeat_snoc {A} (x : A) n : repeat x n ++ [x] = repeat x (S n).
Proof.
  symmetry. apply repeat_cons.
Qed.

Lemma out_shape_xstep x (s s' : St) :
  xreachable d s -> xstep d x s = Some s' ->
  (in_try (mpc s) = true ->
   exists n, out s = banner d (mpc s) ++ repeat OutReadWarning n /\
             (cpc s = CNotStarted -> n = 0%nat)) ->
  in_try (mpc s') = true ->
  exists n, out s' = banner d (mpc s') ++ repeat OutReadWarning n /\
            (cpc s' = CNotStarted -> n = 0%nat).
Proof.
  intros Hr H HP Ht'.
  pose proof (xreachable_XInv s Hr)
    as [Hlen Hput Hdone Hexit Hjoin Hst Hcs Hop Hco Hw Hne Hnp Hret].
  destruct s as [q st ns c m o co w sh]; simpl in *.
  destruct x as [[r|k]|e]; simpl in H.
  - (* the capture thread *)
    unfold cap_step in H; simpl in H.
    assert (Ht : in_try m = true).
    { destruct c; try discriminate;
        try (injection H as <-; exact Ht').
      - destruct (q_get_nowait q) as [e|[x q']]; injection H as <-; exact Ht'.
      - destruct (q_put q f); try discriminate. injection H as <-; exact Ht'. }
    destruct (HP Ht) as (n & Ho & Hn). clear HP.
    destruct c; try discriminate.
    all: try (injection H as <-; exists n; simpl; split;
              [exact Ho | destruct st; destruct r; destruct q; discriminate]).
    + destruct (q_get_nowait q) as [e|[x q']]; injection H as <-;
        exists n; simpl; split; (exact Ho || discriminate).
    + destruct (q_put q f); try discriminate. injection H as <-.
      exists n; simpl; split; (exact Ho || discriminate).
    + injection H as <-. exists (S n). simpl. split; [| discriminate].
      rewrite Ho, <- app_assoc, repeat_snoc. reflexivity.
  - (* the main thread *)
    unfold main_step in H; simpl in H.
    assert (Hn0 : started m = false -> in_try m = true ->
                  forall n, (c = CNotStarted -> n = 0%nat) -> n = 0%nat).
    { intros Hs Ht n Hn. destruct (Hcs Ht) as [E | E]; [auto | congruence]. }
    destruct m; try discriminate;
      try (destruct (HP eq_refl) as (n & Ho & Hn); clear HP).
    + (* MInit *)
      assert (n = 0%nat) as -> by (apply Hn0; auto).
      simpl in Ho. subst o.
      destruct (initialize_capture_device d device_index) as [o' [e|cp]] eqn:Ei;
        injection H as <-; try discriminate.
      exists 0%nat; simpl; rewrite app_nil_r;
        unfold banner; rewrite Ei; auto.
    + (* MPrintInit *)
      assert (n = 0%nat) as -> by (apply Hn0; auto).
      injection H as <-. exists 0%nat. simpl in *.
      rewrite app_nil_r in *. subst o. auto.
    + (* MStart *)
      assert (n = 0%nat) as -> by (apply Hn0; auto).
      injection H as <-. exists 0%nat. simpl in *. split; [exact Ho | auto].
    + injection H as <-. exists n. simpl in *. auto.
    + injection H as <-. exists n. simpl in *. auto.
    + injection H as <-. exists n. destruct st; simpl in *; auto.
    + injection H as <-. exists n. destruct (q_empty q); simpl in *; auto.
    + destruct (q_get q) as [[x q']|]; try discriminate.
      injection H as <-. exists n. simpl in *. auto.
    + injection H as <-. exists n. simpl in *. auto.
    + injection H as <-. exists n. destruct (is_quit k); simpl in *; auto.
    + destruct c; try discriminate; injection H as <-; exists n;
        simpl in *; auto.
    + injection H as <-. exists n. simpl in *. auto.
    + injection H as <-. discriminate.
    + destruct (is_Exception (exn_cls e)); injection H as <-; discriminate.
  - (* a raise *)
    destruct (in_try m); try discriminate. injection H as <-. discriminate.
Qed.

(** X8: what a session prints.  While the main thread is inside the try
    body, standard output is the lines [main] has printed so far (the
    frame-rate warning if any, then the announcement) followed by read
    warnings only, none of them before the capture thread is started; no
    error line is printed before [main] has returned, and at most one is
    ever printed. *)
Theorem session_output_shape (s : St) :
  xreachable d s ->
  (in_try (mpc s) = true ->
   exists n, out s = banner d (mpc s) ++ repeat OutReadWarning n /\
             (cpc s = CNotStarted -> n = 0%nat)) /\
  (mpc s <> MReturned -> filter is_error (out s) = []) /\
  (List.length (filter is_error (out s)) <= 1)%nat.
Proof.
  intros Hr. split; [| split].
  - induction Hr as [|x s s' Hr IH E].
    + intros _. exists 0%nat. auto.
    + exact (out_shape_xstep x s s' Hr E IH).
  - exact (x_noerr s (xreachable_XInv s Hr)).
  - pose proof (xreachable_XInv s Hr)
      as [Hlen Hput Hdone Hexit Hjoin Hst Hcs Hop Hco Hw Hne Hnp Hret].
    destruct (mpc s) eqn:Em;
      try (rewrite Hne by discriminate; simpl; lia).
    destruct (Hret eq_refl) as [[m Hm] | [Hm _]]; rewrite Hm; simpl; lia.
Qed.

End Raising.

(** * The pure parts *)

(** X9: the quit test looks at the low byte of the value of
    [cv2.waitKey]: a key quits exactly when it is 113 modulo 256.  So
    "no key" (-1) does not quit, nor does an upper-case Q (81), while a
    [q] with modifier bits above the low byte does. *)
Theorem is_quit_spec (k : Z) :
  is_quit k = true <-> k mod 256 = 113.
Proof.
  unfold is_quit, ord_q. rewrite Z.eqb_eq.
  change 255 with (Z.ones 8). rewrite Z.land_ones by lia.
  change (2 ^ 8) with 256. reflexivity.
Qed.

Lemma float_lt_int_spec (x : pyfloat) :
  float_lt_int x CAPTURE_FPS = true <-> fps_below x.
Proof.
  destruct x as [q| | |]; simpl; try tauto; try (split; [discriminate | tauto]).
  rewrite negb_true_iff. split.
  - intros H. apply Qnot_le_lt. rewrite <- Qle_bool_iff. congruence.
  - intros H. destruct (Qle_bool (inject_Z CAPTURE_FPS) q) eqn:E; auto.
    apply Qle_bool_iff in E. exfalso. exact (Qlt_not_le _ _ H E).
Qed.

(** X10: for an index that fits a C [int] (where the constructor
    returns), whatever [initialize_capture_device] returns is an opened
    capture object for that index, on a device that does open; and it
    raises exactly when the device does not open, having printed
    nothing, the exception being an [Exception] whose text names the
    index. *)
Theorem returned_capture_is_open (d : Device) (idx : Z) :
  fits_c_int idx = true ->
  (forall o cap, initialize_capture_device d idx = (o, inr cap) ->
     isOpened cap = true /\ vc_index cap = idx /\ dev_opens d idx = true) /\
  (forall o e, initialize_capture_device d idx = (o, inl e) ->
     dev_opens d idx = false /\ o = [] /\
     e = mkExn ClsException (MsgOpenFailed idx)).
Proof.
  intros _.
  unfold initialize_capture_device, isOpened, VideoCapture_new. simpl.
  destruct (dev_opens d idx) eqn:Eo; simpl.
  - destruct (float_lt_int (dev_fps d) CAPTURE_FPS); split;
      intros o x H; try discriminate; injection H as <- <-; auto.
  - split; intros o x H; try discriminate. injection H as <- <-. auto.
Qed.

(** X11: on a device that opens, the warning is printed exactly when the
    reported frame rate is below 360: a finite rate under 360 or minus
    infinity.  A rate of 360 or more, plus infinity and not-a-number give
    no warning. *)
Theorem fps_warning_iff_below (d : Device) (idx : Z) :
  dev_opens d idx = true ->
  (fps_below (dev_fps d) ->
   initialize_capture_device d idx
   = ([OutFpsWarning CAPTURE_FPS (dev_fps d)], inr (mkCap idx true))) /\
  (~ fps_below (dev_fps d) ->
   initialize_capture_device d idx = ([], inr (mkCap idx true))).
Proof.
  intros Ho. unfold initialize_capture_device, isOpened, VideoCapture_new.
  simpl. rewrite Ho. simpl.
  destruct (float_lt_int (dev_fps d) CAPTURE_FPS) eqn:E; split; intros H;
    try reflexivity; exfalso.
  - apply H. apply float_lt_int_spec. exact E.
  - apply float_lt_int_spec in H. congruence.
Qed.

(** * Sessions on concrete devices, continued *)

Lemma framed_reachable : reachable dev_60fps framed.
Proof.
  apply (reachable_after nat dev_60fps
           (startup ++ [Cap None; Cap (Some 1%nat); Cap None; Cap None;
                        Cap None])).
  vm_compute. reflexivity.
Qed.

Lemma raced_reachable : reachable dev_60fps raced.
Proof.
  apply (reachable_after nat dev_60fps race_schedule). vm_compute. reflexivity.
Qed.

Lemma session_never_deadlocks_witness :
  reachable dev_60fps raced /\
  ((exists a s', step dev_60fps a raced = Some s') \/ mpc raced = MReturned) /\
  (terminal dev_60fps raced ->
   mpc raced = MReturned /\ cap_ended (cpc raced) = true /\
   exit_status raced = Some 0).
Proof.
  split; [exact raced_reachable |].
  exact (session_never_deadlocks nat dev_60fps raced raced_reachable).
Defined.

Lemma two_reads_run :
  run dev_60fps two_reads init
  = Some (mkState [2%nat] false 0%nat CHead DKey
            [OutFpsWarning 360 (FFinite (60 # 1));
             OutInitialized 1 1366 768 360]
            true true [1%nat]).
Proof. vm_compute. reflexivity. Qed.

Lemma shown_in_read_order_witness :
  run dev_60fps two_reads init
  = Some (mkState [2%nat] false 0%nat CHead DKey
            [OutFpsWarning 360 (FFinite (60 # 1));
             OutInitialized 1 1366 768 360]
            true true [1%nat]) /\
  subseq [1%nat] (reads dev_60fps two_reads init) /\
  subseq ([1%nat] ++ [] ++ [2%nat] ++ []) (reads dev_60fps two_reads init) /\
  (1 <= List.length (reads dev_60fps two_reads init))%nat.
Proof.
  split; [exact two_reads_run |].
  exact (shown_in_read_order nat dev_60fps two_reads _ two_reads_run).
Defined.

Lemma no_use_after_release_witness :
  reachable dev_60fps framed /\
  (cap_running (cpc framed) = true -> cap_open framed = true) /\
  (forall f, mpc framed = DShow f -> window framed = true) /\
  (mpc framed = DKey -> window framed = true).
Proof.
  split; [exact framed_reachable |].
  exact (no_use_after_release nat dev_60fps framed framed_reachable).
Defined.

Lemma quitting_finishes :
  run dev_60fps [Cap None; Main 0; Main 0; Main 0; Main 0] quitting
  = Some (mkState [] true 1%nat CDone MReturned
            [OutFpsWarning 360 (FFinite (60 # 1));
             OutInitialized 1 1366 768 360]
            false false []).
Proof. vm_compute. reflexivity. Qed.

Lemma nothing_shown_after_stop_witness :
  reachable dev_60fps quitting /\ stop quitting = true /\
  shown (mkState [] true 1%nat CDone MReturned
           [OutFpsWarning 360 (FFinite (60 # 1));
            OutInitialized 1 1366 768 360]
           false false ([] : list nat))
  = shown quitting.
Proof.
  split; [exact quitting_reachable | split; [reflexivity |]].
  exact (nothing_shown_after_stop nat dev_60fps _ quitting _
           quitting_reachable eq_refl quitting_finishes).
Defined.

Lemma raced_goes_on :
  run dev_60fps [Main 0; Main 0; Main 0; Main 0] raced
  = Some (mkState [] false 0%nat (CDead (mkExn ClsQueueEmpty MsgEmpty)) DKey
            [OutFpsWarning 360 (FFinite (60 # 1));
             OutInitialized 1 1366 768 360]
            true true [1%nat]).
Proof. vm_compute. reflexivity. Qed.

Lemma dead_capture_freezes_display_witness :
  reachable dev_60fps raced /\
  cpc raced = CDead (mkExn ClsQueueEmpty MsgEmpty) /\
  mkExn ClsQueueEmpty MsgEmpty = mkExn ClsQueueEmpty MsgEmpty /\
  queue raced = [] /\
  cpc (mkState [] false 0%nat (CDead (mkExn ClsQueueEmpty MsgEmpty)) DKey
         [OutFpsWarning 360 (FFinite (60 # 1));
          OutInitialized 1 1366 768 360]
         true true [1%nat])
  = CDead (mkExn ClsQueueEmpty MsgEmpty) /\
  queue (mkState [] false 0%nat (CDead (mkExn ClsQueueEmpty MsgEmpty)) DKey
           [OutFpsWarning 360 (FFinite (60 # 1));
            OutInitialized 1 1366 768 360]
           true true [1%nat])
  = [] /\
  reads dev_60fps [Main 0; Main 0; Main 0; Main 0] raced = [] /\
  subseq
    (shown (mkState [] false 0%nat (CDead (mkExn ClsQueueEmpty MsgEmpty)) DKey
              [OutFpsWarning 360 (FFinite (60 # 1));
               OutInitialized 1 1366 768 360]
              true true [1%nat]))
    (shown raced ++ held (mpc raced)).
Proof.
  split; [exact raced_reachable | split; [reflexivity |]].
  exact (dead_capture_freezes_display nat dev_60fps _ raced _ _
           raced_reachable eq_refl raced_goes_on).
Defined.

Lemma display_iteration_shows_pending_witness :
  reachable dev_60fps framed /\ mpc framed = DHead /\ stop framed = false /\
  exists s',
    display_iteration dev_60fps 113 framed = Some s' /\
    shown s' = shown framed ++ queue framed /\
    queue s' = [] /\
    mpc s' = DHead /\
    stop s' = is_quit 113 /\
    cpc s' = cpc framed /\
    out s' = out framed.
Proof.
  split; [exact framed_reachable | split; [reflexivity | split; [reflexivity |]]].
  exact (display_iteration_shows_pending nat dev_60fps framed 113
           framed_reachable eq_refl eq_refl).
Defined.

Lemma fps_warning_iff_below_witness :
  dev_opens dev_nan 0 = true /\
  ~ fps_below (dev_fps dev_nan) /\
  initialize_capture_device dev_nan 0 = ([], inr (mkCap 0 true)).
Proof.
  split; [reflexivity | split; [exact (fun H => H) |]].
  exact (proj2 (fps_warning_iff_below dev_nan 0 eq_refl) (fun H => H)).
Defined.

(** * Sessions with raises on concrete devices *)

Lemma polling_xreachable : xreachable dev_60fps polling.
Proof. exact (reachable_xreachable nat dev_60fps polling polling_reachable). Qed.

Lemma crashed_xreachable : xreachable dev_60fps crashed.
Proof.
  apply (xreachable_xrun nat dev_60fps waitKey_fails init).
  - constructor.
  - vm_compute. reflexivity.
Qed.

Lemma interrupted_xreachable : xreachable dev_60fps interrupted.
Proof.
  apply (xreachable_xrun nat dev_60fps ctrl_c init).
  - constructor.
  - vm_compute. reflexivity.
Qed.

(** C10, refuted as stated: Ctrl-C while the display loop polls the
    keyboard raises [KeyboardInterrupt], which [except Exception] does not
    match; the exception leaves [main] and no error line is printed. *)
Lemma KeyboardInterrupt_leaves_main :
  ~ (forall (s : State nat) (e : exn),
       xreachable dev_60fps s -> mpc s <> MPropagated e).
Proof.
  intros H.
  apply (H interrupted (mkExn ClsKeyboardInterrupt MsgEmpty)
           interrupted_xreachable).
  reflexivity.
Qed.

Lemma interrupted_prints_nothing :
  xrun dev_60fps ctrl_c init = Some interrupted /\
  mpc interrupted = MPropagated (mkExn ClsKeyboardInterrupt MsgEmpty) /\
  filter is_error (out interrupted) = [] /\
  exit_status interrupted = None.
Proof. vm_compute. repeat split. Qed.

Lemma main_handles_Exception_in_try_witness :
  xreachable dev_60fps polling /\
  (forall e', mpc polling = MPropagated e' ->
              is_Exception (exn_cls e') = false) /\
  (in_try (mpc polling) = true ->
   is_Exception (exn_cls (mkExn ClsCvError (MsgText "waitKey"))) = true ->
   exists s1 s2,
     xstep dev_60fps (Raise (mkExn ClsCvError (MsgText "waitKey"))) polling
       = Some s1 /\
     mpc s1 = MExcept (mkExn ClsCvError (MsgText "waitKey")) /\
     xstep dev_60fps (Run (Main 0)) s1 = Some s2 /\ mpc s2 = MReturned /\
     out s2 = out polling
              ++ [OutError (exn_msg (mkExn ClsCvError (MsgText "waitKey")))] /\
     exit_status s2 = Some 0) /\
  (mpc polling = MExcept (mkExn ClsCvError (MsgText "waitKey")) ->
   is_Exception (exn_cls (mkExn ClsCvError (MsgText "waitKey"))) = true ->
   forall k, exists s2,
     main_step dev_60fps k polling = Some s2 /\ mpc s2 = MReturned /\
     out s2 = out polling
              ++ [OutError (exn_msg (mkExn ClsCvError (MsgText "waitKey")))]) /\
  (forall r s' e', cap_step r polling = Some s' -> cpc s' = CDead e' ->
     mpc s' = mpc polling /\ out s' = out polling).
Proof.
  split; [exact polling_xreachable |].
  exact (main_handles_Exception_in_try nat dev_60fps polling
           (mkExn ClsCvError (MsgText "waitKey")) polling_xreachable).
Defined.

Lemma teardown_unless_raised_witness :
  xreachable dev_60fps polling /\
  (mpc polling = DRelease \/ mpc polling = DDestroy ->
   stop polling = true /\ cap_ended (cpc polling) = true /\
   cpc polling <> CNotStarted) /\
  (mpc polling = MReturned -> filter is_error (out polling) = [] ->
   stop polling = true /\ cap_open polling = false /\
   window polling = false /\ cap_ended (cpc polling) = true) /\
  (in_try (mpc polling) = true ->
   is_Exception (exn_cls (mkExn ClsCvError (MsgText "waitKey"))) = true ->
   exists s2,
     xrun dev_60fps
       [Raise (mkExn ClsCvError (MsgText "waitKey")); Run (Main 0)] polling
       = Some s2 /\
     mpc s2 = MReturned /\
     cap_open s2 = holds_device (mpc polling) /\
     window s2 = has_window (mpc polling) /\
     cpc s2 = cpc polling /\ stop s2 = stop polling /\
     queue s2 = queue polling).
Proof.
  split; [exact polling_xreachable |].
  exact (teardown_unless_raised nat dev_60fps polling
           (mkExn ClsCvError (MsgText "waitKey")) polling_xreachable).
Defined.

(** The session of [waitKey_fails] ends with the device still open, the
    window still there and the capture thread still running. *)
Lemma crashed_leaks :
  mpc crashed = MReturned /\ stop crashed = false /\
  cap_open crashed = true /\ window crashed = true /\
  cpc crashed = CHead /\
  out crashed = [OutFpsWarning 360 (FFinite (60 # 1));
                 OutInitialized 1 1366 768 360;
                 OutError (MsgText "waitKey")].
Proof. repeat split. Qed.

Lemma loops_left_on_stop_or_exception_witness :
  xreachable dev_60fps crashed /\
  (cpc crashed = CDone -> stop crashed = true) /\
  (mpc crashed = DJoin \/ mpc crashed = DRelease \/ mpc crashed = DDestroy ->
   stop crashed = true) /\
  (mpc crashed = MReturned -> stop crashed = false ->
   exists m, filter is_error (out crashed) = [OutError m]).
Proof.
  split; [exact crashed_xreachable |].
  exact (loops_left_on_stop_or_exception nat dev_60fps crashed
           crashed_xreachable).
Defined.

Lemma framed_xreachable : xreachable dev_60fps framed.
Proof. exact (reachable_xreachable nat dev_60fps framed framed_reachable). Qed.

Lemma session_output_shape_witness :
  xreachable dev_60fps framed /\
  (in_try (mpc framed) = true ->
   exists n, out framed = banner dev_60fps (mpc framed)
                          ++ repeat OutReadWarning n /\
             (cpc framed = CNotStarted -> n = 0%nat)) /\
  (mpc framed <> MReturned -> filter is_error (out framed) = []) /\
  (List.length (filter is_error (out framed)) <= 1)%nat.
Proof.
  split; [exact framed_xreachable |].
  exact (session_output_shape nat dev_60fps framed framed_xreachable).
Defined.

Lemma returned_capture_is_open_witness :
  fits_c_int 1 = true /\
  initialize_capture_device dev_60fps 1
  = ([OutFpsWarning CAPTURE_FPS (dev_fps dev_60fps)], inr (mkCap 1 true)) /\
  isOpened (mkCap 1 true) = true /\ vc_index (mkCap 1 true) = 1 /\
  dev_opens dev_60fps 1 = true.
Proof.
  split; [reflexivity | split; [reflexivity |]].
  exact (proj1 (returned_capture_is_open dev_60fps 1 eq_refl) _ _ eq_refl).
Defined.
